(** * SiteOne note store: a shallow embedding of [src/app/page.tsx]

    The development follows the state logic of the [Home] component:
    the [NoteStore] value held in React state, the four handlers that
    update it ([createNewNote], [updateCurrentNote], [selectNote],
    [deleteNote]), the hydration effect that reads [localStorage], the
    debounced save effect that writes it, and the editor with its own
    debounce.

    Conventions of the model.
    - A JavaScript string is the list of its UTF-16 code units, each a
      number; [js] gives the string of an ASCII literal.
    - [string | null] is an [option].
    - A call of the platform ([new Date().toISOString()], [Date.now()],
      [Math.random()]) reads a [World]: the k-th platform call of a run
      returns the k-th element of the matching stream.  Handlers are
      written in the state monad [M] over the world.
    - A functional update [setNoteStore(prev => ...)] is applied to the
      state at the time of the call.  What a handler reads from its
      closure belongs to the render that made it: [createNewNote],
      [selectNote] and [deleteNote] are called by a click, on the page as
      it was last rendered; [updateCurrentNote] is called by a timer of
      the editor, which may fire after later renders, so it is given the
      active id of the render that made it. *)

From stdpp Require Import base option list strings gmap.
From Stdlib Require Import ZArith Lia Ascii.

Set Default Proof Using "Type".
Set Warnings "-register-all".

(** ** Strings *)

Abbreviation jsstring := (list N) (only parsing).

(** The string of an ASCII literal. *)
Fixpoint js (s : string) : jsstring :=
  match s with
  | "" => []
  | String c r => N_of_ascii c :: js r
  end.

(** ** Data model ([src/app/types/note.ts]) *)

Record Note := mkNote {
  id : jsstring;
  content : jsstring;
  createdAt : jsstring;
  updatedAt : jsstring
}.

Record NoteStore := mkStore {
  notes : list Note;
  activeNoteId : option jsstring
}.

(** [useState<NoteStore>({ notes: [], activeNoteId: null })] *)
Definition emptyStore : NoteStore := mkStore [] None.

(** ** The platform *)

Record World := mkWorld {
  isoAt : nat → jsstring;     (* result of [new Date().toISOString()] *)
  now36At : nat → jsstring;   (* result of [Date.now().toString(36)] *)
  rand36At : nat → jsstring;  (* result of [Math.random().toString(36)] *)
  calls : nat                 (* platform calls made so far *)
}.

Definition tick (w : World) : World :=
  mkWorld (isoAt w) (now36At w) (rand36At w) (S (calls w)).

Definition M (A : Type) : Type := World → A * World.

Definition ret {A} (a : A) : M A := λ w, (a, w).

Definition bind {A B} (c : M A) (k : A → M B) : M B :=
  λ w, let (a, w') := c w in k a w'.

Notation "'let*' x := c 'in' k" := (bind c (λ x, k))
  (at level 10, x name, c at level 100, k at level 200).

Definition new_Date_toISOString : M jsstring := λ w, (isoAt w (calls w), tick w).
Definition Date_now_toString36 : M jsstring := λ w, (now36At w (calls w), tick w).
Definition Math_random_toString36 : M jsstring := λ w, (rand36At w (calls w), tick w).

(** [s.substring(n)] *)
Definition substring_from (n : nat) (s : jsstring) : jsstring := drop n s.

(** [Date.now().toString(36) + Math.random().toString(36).substring(2)] *)
Definition generateId : M jsstring :=
  let* t := Date_now_toString36 in
  let* r := Math_random_toString36 in
  ret (t ++ substring_from 2 r).

(** JavaScript truthiness of a [string | null]: [null] and the empty
    string are falsy. *)
Definition truthy (o : option jsstring) : bool :=
  match o with
  | Some (_ :: _) => true
  | _ => false
  end.

(** ** The handlers of [Home] *)

Record App := mkApp {
  noteStore : NoteStore;
  isCreating : bool
}.

Definition initialApp : App := mkApp emptyStore false.

(** [createNewNote]: ignored during the cool-down; otherwise a note is
    built from the generated id and two readings of the clock, put in
    front of the list and made active. *)
Definition createNewNote (app : App) : M App :=
  if isCreating app then ret app
  else
    let* i := generateId in
    let* c := new_Date_toISOString in
    let* u := new_Date_toISOString in
    let newNote := mkNote i [] c u in
    let prev := noteStore app in
    ret (mkApp (mkStore (newNote :: notes prev) (Some (id newNote))) true).

(** [setTimeout(() => setIsCreating(false), 300)] firing. *)
Definition cooldownElapsed (app : App) : App :=
  mkApp (noteStore app) false.

(** [prev.notes.map(note => note.id === prev.activeNoteId
      ? { ...note, content, updatedAt: new Date().toISOString() } : note)]:
    the clock is read once for every note that matches. *)
Fixpoint map_update (active : option jsstring) (content0 : jsstring)
    (l : list Note) : M (list Note) :=
  match l with
  | [] => ret []
  | note :: rest =>
      let* note' :=
        (if decide (Some (id note) = active)
         then let* u := new_Date_toISOString in
              ret (mkNote (id note) content0 (createdAt note) u)
         else ret note) in
      let* rest' := map_update active content0 rest in
      ret (note' :: rest')
  end.

(** [updateCurrentNote] as made by a render where the active id was
    [rendered], called on content [content0] when the state is [prev]:
    the guard [if (!noteStore.activeNoteId) return] reads [rendered],
    the update [setNoteStore(prev => ...)] reads [prev].  [None] when it
    returns without a call of [setNoteStore]. *)
Definition updateCurrentNote_of (rendered : option jsstring) (content0 : jsstring)
    (prev : NoteStore) : M (option NoteStore) :=
  if negb (truthy rendered) then ret None
  else
    let* ns := map_update (activeNoteId prev) content0 (notes prev) in
    ret (Some (mkStore ns (activeNoteId prev))).

(** The state that [updateCurrentNote] leaves. *)
Definition updateCurrentNote (rendered : option jsstring) (content0 : jsstring)
    (prev : NoteStore) : M NoteStore :=
  let* r := updateCurrentNote_of rendered content0 prev in
  ret (default prev r).

(** [noteStore.notes.find(n => n.id === id)] *)
Definition find_note (i : jsstring) (l : list Note) : option Note :=
  List.find (λ n, bool_decide (id n = i)) l.

(** [selectNote]: the note is looked up, and the result is not used. *)
Definition selectNote (i : jsstring) (prev : NoteStore) : NoteStore :=
  let note := find_note i (notes prev) in
  mkStore (notes prev) (Some i).

(** [deleteNote] *)
Definition deleteNote (i : jsstring) (prev : NoteStore) : NoteStore :=
  mkStore (filter (λ note, id note ≠ i) (notes prev))
          (if decide (activeNoteId prev = Some i) then None else activeNoteId prev).

(** The intents the page forwards to the handlers.  A change of content
    comes with the active id of the render whose [updateCurrentNote] is
    called. *)
Inductive Event :=
  | NewNoteClicked
  | CooldownElapsed
  | ContentChanged (rendered : option jsstring) (content0 : jsstring)
  | NoteClicked (i : jsstring)
  | DeleteClicked (i : jsstring).

Definition handle (e : Event) (app : App) : M App :=
  match e with
  | NewNoteClicked => createNewNote app
  | CooldownElapsed => ret (cooldownElapsed app)
  | ContentChanged r c =>
      let* s := updateCurrentNote r c (noteStore app) in
      ret (mkApp s (isCreating app))
  | NoteClicked i => ret (mkApp (selectNote i (noteStore app)) (isCreating app))
  | DeleteClicked i => ret (mkApp (deleteNote i (noteStore app)) (isCreating app))
  end.

Fixpoint run (es : list Event) (app : App) : M App :=
  match es with
  | [] => ret app
  | e :: es' => let* app' := handle e app in run es' app'
  end.


(** ** JSON values and [JSON.stringify]

    A value read from or written to [localStorage] goes through the
    platform's [JSON.parse] and [JSON.stringify].  The model keeps a
    number as the literal it was written with (the conversion to a
    double is modelled only as far as the page depends on it, see
    [number_is_zero]: a [NoteStore] holds no number), and an object as
    its members in insertion order (the reordering of integer-like keys
    is not modelled: a [NoteStore] has none). *)

Inductive JSON :=
  | JNull
  | JBool (b : bool)
  | JNumber (literal : jsstring)
  | JString (s : jsstring)
  | JArray (elems : list JSON)
  | JObject (members : list (jsstring * JSON)).

Definition dquote : N := 34.
Definition backslash : N := 92.

(** A digit of a [\uXXXX] escape as [JSON.stringify] writes it, in
    lower case. *)
Definition hex_digit (n : N) : N :=
  (if n <? 10 then 48 + n else 87 + n)%N.

(** UnicodeEscape: [\u] and the four hexadecimal digits of the code
    unit. *)
Definition unicode_escape_of (c : N) : jsstring :=
  [backslash; 117%N;
   hex_digit (c / 4096 mod 16); hex_digit (c / 256 mod 16);
   hex_digit (c / 16 mod 16); hex_digit (c mod 16)].

(** Leading and trailing surrogates. *)
Definition is_high (c : N) : bool := ((55296 <=? c) && (c <=? 56319))%N.
Definition is_low (c : N) : bool := ((56320 <=? c) && (c <=? 57343))%N.

(** What QuoteJSONString writes for a code point that is one code unit:
    the short escapes, [\uXXXX] for the other control characters and
    for a surrogate that stands alone, the code unit itself
    otherwise. *)
Definition quote_char (c : N) : jsstring :=
  if (c =? 8)%N then js "\b"
  else if (c =? 9)%N then js "\t"
  else if (c =? 10)%N then js "\n"
  else if (c =? 12)%N then js "\f"
  else if (c =? 13)%N then js "\r"
  else if (c =? 34)%N then [backslash; dquote]
  else if (c =? 92)%N then [backslash; backslash]
  else if (c <? 32)%N || is_high c || is_low c then unicode_escape_of c
  else [c].

(** QuoteJSONString without the quotes: the string is read code point
    by code point, and a leading surrogate followed by a trailing one is
    one code point, written as it is. *)
Fixpoint quote_chars (s : jsstring) : jsstring :=
  match s with
  | [] => []
  | c :: r =>
      if is_high c then
        match r with
        | d :: r' =>
            if is_low d then c :: d :: quote_chars r'
            else quote_char c ++ quote_chars r
        | [] => quote_char c
        end
      else quote_char c ++ quote_chars r
  end.

Definition quote (s : jsstring) : jsstring :=
  dquote :: quote_chars s ++ [dquote].

Fixpoint join_comma (l : list jsstring) : jsstring :=
  match l with
  | [] => []
  | [x] => x
  | x :: r => x ++ js "," ++ join_comma r
  end.

Fixpoint JSON_stringify (v : JSON) : jsstring :=
  match v with
  | JNull => js "null"
  | JBool true => js "true"
  | JBool false => js "false"
  | JNumber l => l
  | JString s => quote s
  | JArray vs => js "[" ++ join_comma (List.map JSON_stringify vs) ++ js "]"
  | JObject ms =>
      js "{" ++ join_comma (List.map (λ m, quote (fst m) ++ js ":" ++ JSON_stringify (snd m)) ms)
         ++ js "}"
  end.

(** ** [JSON.parse]: tokens *)

Inductive token :=
  | TLBrace | TRBrace | TLBrack | TRBrack | TColon | TComma
  | TString (s : jsstring)
  | TNumber (literal : jsstring)
  | TTrue | TFalse | TNull.

Definition is_ws (c : N) : bool :=
  ((c =? 32) || (c =? 9) || (c =? 10) || (c =? 13))%N.

Definition is_digit (c : N) : bool := ((48 <=? c) && (c <=? 57))%N.

Definition hex_value (c : N) : option N :=
  if ((48 <=? c) && (c <=? 57))%N then Some (c - 48)%N
  else if ((97 <=? c) && (c <=? 102))%N then Some (c - 87)%N
  else if ((65 <=? c) && (c <=? 70))%N then Some (c - 55)%N
  else None.

(** The code unit written [\uXXXX]. *)
Definition unicode_escape (h1 h2 h3 h4 : N) : option N :=
  a ← hex_value h1; b ← hex_value h2; c ← hex_value h3; d ← hex_value h4;
  Some (((a * 16 + b) * 16 + c) * 16 + d)%N.

Definition simple_escape (e : N) : option N :=
  if (e =? 34)%N then Some dquote
  else if (e =? 92)%N then Some backslash
  else if (e =? 47)%N then Some 47%N
  else if (e =? 98)%N then Some 8%N
  else if (e =? 102)%N then Some 12%N
  else if (e =? 110)%N then Some 10%N
  else if (e =? 114)%N then Some 13%N
  else if (e =? 116)%N then Some 9%N
  else None.

(** The characters of a string literal after its opening quote, up to
    the closing quote; the text after it is returned too. *)
Fixpoint scan_string (s : jsstring) : option (jsstring * jsstring) :=
  match s with
  | [] => None
  | c :: r =>
      if (c =? dquote)%N then Some ([], r)
      else if (c =? backslash)%N then
        match r with
        | e :: r' =>
            if (e =? 117)%N then
              match r' with
              | h1 :: h2 :: h3 :: h4 :: r'' =>
                  x ← unicode_escape h1 h2 h3 h4;
                  '(str, rest) ← scan_string r'';
                  Some (x :: str, rest)
              | _ => None
              end
            else
              x ← simple_escape e;
              '(str, rest) ← scan_string r';
              Some (x :: str, rest)
        | [] => None
        end
      else if (c <? 32)%N then None
      else
        '(str, rest) ← scan_string r;
        Some (c :: str, rest)
  end.

(** The longest prefix of digits, and the text after it. *)
Fixpoint take_digits (s : jsstring) : jsstring * jsstring :=
  match s with
  | c :: r =>
      if is_digit c then let (ds, rest) := take_digits r in (c :: ds, rest)
      else ([], s)
  | [] => ([], [])
  end.

(** A number literal: an optional minus sign; an integer part, which
    is a single 0 or a nonzero digit followed by digits; an optional
    fraction, a dot followed by one digit or more; an optional exponent,
    e or E, an optional sign and one digit or more. *)
Definition scan_int (s : jsstring) : option (jsstring * jsstring) :=
  match s with
  | c :: r =>
      if (c =? 48)%N then Some ([c], r)
      else if is_digit c then let (ds, rest) := take_digits r in Some (c :: ds, rest)
      else None
  | [] => None
  end.

Definition scan_frac (s : jsstring) : option (jsstring * jsstring) :=
  match s with
  | c :: r =>
      if (c =? 46)%N then
        match take_digits r with
        | ([], _) => None
        | (ds, rest) => Some (c :: ds, rest)
        end
      else Some ([], s)
  | [] => Some ([], s)
  end.

Definition scan_exp (s : jsstring) : option (jsstring * jsstring) :=
  match s with
  | c :: r =>
      if ((c =? 101) || (c =? 69))%N then
        let (sign, r1) :=
          match r with
          | d :: r' => if ((d =? 43) || (d =? 45))%N then ([d], r') else ([], r)
          | [] => ([], r)
          end in
        match take_digits r1 with
        | ([], _) => None
        | (ds, rest) => Some (c :: sign ++ ds, rest)
        end
      else Some ([], s)
  | [] => Some ([], s)
  end.

Definition scan_number (s : jsstring) : option (jsstring * jsstring) :=
  let (sign, s0) :=
    match s with
    | c :: r => if (c =? 45)%N then ([c], r) else ([], s)
    | [] => ([], s)
    end in
  '(i, s1) ← scan_int s0;
  '(f, s2) ← scan_frac s1;
  '(e, s3) ← scan_exp s2;
  Some (sign ++ i ++ f ++ e, s3).

Definition punctuator (c : N) : option token :=
  if (c =? 123)%N then Some TLBrace
  else if (c =? 125)%N then Some TRBrace
  else if (c =? 91)%N then Some TLBrack
  else if (c =? 93)%N then Some TRBrack
  else if (c =? 58)%N then Some TColon
  else if (c =? 44)%N then Some TComma
  else None.

(** [s] without its prefix [p], when it starts with [p]. *)
Fixpoint strip_prefix (p s : jsstring) : option jsstring :=
  match p, s with
  | [], _ => Some s
  | a :: p', b :: s' => if (a =? b)%N then strip_prefix p' s' else None
  | _ :: _, [] => None
  end.

Definition keyword (s : jsstring) : option (token * jsstring) :=
  match strip_prefix (js "true") s with
  | Some rest => Some (TTrue, rest)
  | None =>
      match strip_prefix (js "false") s with
      | Some rest => Some (TFalse, rest)
      | None =>
          match strip_prefix (js "null") s with
          | Some rest => Some (TNull, rest)
          | None => None
          end
      end
  end.

Fixpoint tokenize (fuel : nat) (s : jsstring) : option (list token) :=
  match fuel with
  | O => None
  | S fuel' =>
      match s with
      | [] => Some []
      | c :: r =>
          if is_ws c then tokenize fuel' r
          else
            match punctuator c with
            | Some t => ts ← tokenize fuel' r; Some (t :: ts)
            | None =>
                if (c =? dquote)%N then
                  '(str, rest) ← scan_string r;
                  ts ← tokenize fuel' rest; Some (TString str :: ts)
                else if (c =? 45)%N || is_digit c then
                  '(l, rest) ← scan_number s;
                  ts ← tokenize fuel' rest; Some (TNumber l :: ts)
                else
                  '(t, rest) ← keyword s;
                  ts ← tokenize fuel' rest; Some (t :: ts)
            end
      end
  end.

(** ** [JSON.parse]: values *)

(** Defining a property: a key already present keeps its place and
    takes the new value. *)
Fixpoint define_property (k : jsstring) (v : JSON) (ms : list (jsstring * JSON))
    : list (jsstring * JSON) :=
  match ms with
  | [] => [(k, v)]
  | (k', v') :: r =>
      if decide (k' = k) then (k, v) :: r else (k', v') :: define_property k v r
  end.

Definition make_object (ms : list (jsstring * JSON)) : list (jsstring * JSON) :=
  foldl (λ acc m, define_property (fst m) (snd m) acc) [] ms.

Fixpoint parse_value (fuel : nat) (ts : list token) : option (JSON * list token) :=
  match fuel with
  | O => None
  | S fuel' =>
      match ts with
      | TNull :: r => Some (JNull, r)
      | TTrue :: r => Some (JBool true, r)
      | TFalse :: r => Some (JBool false, r)
      | TString s :: r => Some (JString s, r)
      | TNumber l :: r => Some (JNumber l, r)
      | TLBrack :: TRBrack :: r => Some (JArray [], r)
      | TLBrack :: r =>
          '(vs, r') ← parse_elements fuel' r; Some (JArray vs, r')
      | TLBrace :: TRBrace :: r => Some (JObject [], r)
      | TLBrace :: r =>
          '(ms, r') ← parse_members fuel' r; Some (JObject (make_object ms), r')
      | _ => None
      end
  end
with parse_elements (fuel : nat) (ts : list token) : option (list JSON * list token) :=
  match fuel with
  | O => None
  | S fuel' =>
      '(v, r) ← parse_value fuel' ts;
      match r with
      | TComma :: r' =>
          '(vs, r'') ← parse_elements fuel' r'; Some (v :: vs, r'')
      | TRBrack :: r' => Some ([v], r')
      | _ => None
      end
  end
with parse_members (fuel : nat) (ts : list token)
    : option (list (jsstring * JSON) * list token) :=
  match fuel with
  | O => None
  | S fuel' =>
      match ts with
      | TString k :: TColon :: r =>
          '(v, r1) ← parse_value fuel' r;
          match r1 with
          | TComma :: r2 =>
              '(ms, r3) ← parse_members fuel' r2; Some ((k, v) :: ms, r3)
          | TRBrace :: r2 => Some ([(k, v)], r2)
          | _ => None
          end
      | _ => None
      end
  end.

(** [JSON.parse(text)]; [None] stands for the SyntaxError it throws. *)
Definition JSON_parse (text : jsstring) : option JSON :=
  ts ← tokenize (S (length text)) text;
  '(v, rest) ← parse_value (2 * length ts + 2) ts;
  match rest with
  | [] => Some v
  | _ => None
  end.

(** ** A [NoteStore] as a runtime value *)

Definition Note_toJS (n : Note) : JSON :=
  JObject [(js "id", JString (id n)); (js "content", JString (content n));
           (js "createdAt", JString (createdAt n)); (js "updatedAt", JString (updatedAt n))].

Definition activeNoteId_toJS (a : option jsstring) : JSON :=
  match a with
  | Some i => JString i
  | None => JNull
  end.

Definition toJS (s : NoteStore) : JSON :=
  JObject [(js "notes", JArray (List.map Note_toJS (notes s)));
           (js "activeNoteId", activeNoteId_toJS (activeNoteId s))].

(** Property read [v.k] on an object; [None] when there is no such
    property or [v] is not an object. *)
Fixpoint assoc (k : jsstring) (ms : list (jsstring * JSON)) : option JSON :=
  match ms with
  | [] => None
  | (k', v) :: r => if decide (k' = k) then Some v else assoc k r
  end.

Definition get (k : jsstring) (v : JSON) : option JSON :=
  match v with
  | JObject ms => assoc k ms
  | _ => None
  end.

Definition as_string (v : JSON) : option jsstring :=
  match v with
  | JString s => Some s
  | _ => None
  end.

Definition Note_ofJS (v : JSON) : option Note :=
  i ← get (js "id") v ≫= as_string;
  c ← get (js "content") v ≫= as_string;
  ca ← get (js "createdAt") v ≫= as_string;
  ua ← get (js "updatedAt") v ≫= as_string;
  Some (mkNote i c ca ua).

(** The [NoteStore] a runtime value has the shape of, if any: an object
    with a [notes] array of notes and an [activeNoteId] that is a
    string or null. *)
Definition ofJS (v : JSON) : option NoteStore :=
  match get (js "notes") v with
  | Some (JArray l) =>
      ns ← mapM Note_ofJS l;
      match get (js "activeNoteId") v with
      | Some JNull => Some (mkStore ns None)
      | Some (JString a) => Some (mkStore ns (Some a))
      | _ => None
      end
  | _ => None
  end.

(** ** [localStorage] *)

Definition STORAGE_KEY : jsstring := js "note-app-storage".

(** The storage: its items, and the longest value it takes (a write of
    a longer value throws). *)
Record Storage := mkStorage {
  items : gmap (list N) (list N);
  quota : nat
}.

Definition getItem (k : jsstring) (st : Storage) : option jsstring := items st !! k.

(** [setItem(k, v)] on the storage; [None] stands for the
    QuotaExceededError it throws. *)
Definition setItem (k v : jsstring) (st : Storage) : option Storage :=
  if decide (length v ≤ quota st)
  then Some (mkStorage (<[k := v]> (items st)) (quota st))
  else None.

(** [localStorage] as the page drives it: the storage, and the calls of
    [setItem] it has received, oldest first. *)
Record Backend := mkBackend {
  held : Storage;
  setItem_calls : list (list N * list N)
}.

(** [localStorage.setItem(k, v)]: the call is received, and the storage
    takes the value or throws; the boolean is false when it throws. *)
Definition localStorage_setItem (k v : jsstring) (b : Backend) : Backend * bool :=
  let received := setItem_calls b ++ [(k, v)] in
  match setItem k v (held b) with
  | Some st' => (mkBackend st' received, true)
  | None => (mkBackend (held b) received, false)
  end.

(** ** Hydration (the first effect of [Home])

    [loadNotes stored] is the value of the state after the effect, for
    [stored] the result of [localStorage.getItem(STORAGE_KEY)].  The
    state is replaced as soon as the text parses; the lookup of the
    active note that follows changes nothing (its result is dropped, and
    what it throws is caught with the parse errors). *)
Definition loadNotes (stored : option jsstring) : JSON :=
  match stored with
  | Some ((_ :: _) as text) =>
      match JSON_parse text with
      | Some parsed => parsed
      | None => toJS emptyStore
      end
  | _ => toJS emptyStore
  end.

Definition hydrate (st : Storage) : JSON := loadNotes (getItem STORAGE_KEY st).

(** ** The render of [Home] on the state that hydration left

    The state is whatever [JSON.parse] gave.  The body of [Home] and the
    list it returns read [noteStore.notes.find(...)],
    [noteStore.notes.map(note => ...)], and for every element [note.id]
    and [note.content ? note.content.split('\n')[0] || 'Empty note' :
    'New Note']; each throws a TypeError on a value of the wrong kind. *)

Definition digits_value (ds : jsstring) : N :=
  foldl (λ acc d, acc * 10 + (d - 48))%N 0%N ds.

(** Whether the double that a number literal stands for is 0: the
    digits of its mantissa are all 0, or the number is at most 2^-1075,
    half of the least positive double, and rounds to 0. *)
Definition number_is_zero (l : jsstring) : bool :=
  let l0 := match l with
            | c :: r => if (c =? 45)%N then r else l
            | [] => l
            end in
  let (int, r1) := take_digits l0 in
  let (frac, r2) := match r1 with
                    | c :: r => if (c =? 46)%N then take_digits r else ([], r1)
                    | [] => ([], r1)
                    end in
  let exp : Z := match r2 with
                 | _ :: d :: ds =>
                     if (d =? 45)%N then (- Z.of_N (digits_value ds))%Z
                     else if (d =? 43)%N then Z.of_N (digits_value ds)
                     else Z.of_N (digits_value (d :: ds))
                 | _ => 0%Z
                 end in
  let m := digits_value (int ++ frac) in
  let scale := (exp - Z.of_nat (length frac))%Z in
  (m =? 0)%N || ((scale <? 0)%Z && (m * 2 ^ 1075 <=? 10 ^ Z.to_N (- scale))%N).

(** JavaScript truthiness of a value. *)
Definition JSON_truthy (v : JSON) : bool :=
  match v with
  | JNull => false
  | JBool b => b
  | JNumber l => negb (number_is_zero l)
  | JString s => if s is [] then false else true
  | JArray _ | JObject _ => true
  end.

(** A row of the list is rendered without a TypeError: the element is
    not [null] (reading [note.id] of [null] throws), and its [content]
    is falsy or a string (no other value has a [split] to call). *)
Definition row_renders (note : JSON) : bool :=
  match note with
  | JNull => false
  | _ =>
      match get (js "content") note with
      | Some c => if JSON_truthy c then (if c is JString _ then true else false) else true
      | None => true
      end
  end.

(** [Home] is rendered without a TypeError: the state is an object whose
    [notes] is an array (nothing else has a [find] and a [map] to call)
    and every row is rendered. *)
Definition Home_renders (state : JSON) : bool :=
  match state with
  | JObject ms =>
      match assoc (js "notes") ms with
      | Some (JArray l) => forallb row_renders l
      | _ => false
      end
  | _ => false
  end.

(** The page after startup: the state that hydration left, or [None]
    when the render of that state throws, which takes the page down (no
    error boundary is declared). *)
Definition startup (stored : option jsstring) : option JSON :=
  let state := loadNotes stored in
  if Home_renders state then Some state else None.

(** ** The debounced save *)

(** [JSON.stringify(data)] for the state of the page. *)
Definition payload (data : NoteStore) : jsstring := JSON_stringify (toJS data).

(** The function given to [debounce]:
    [try { localStorage.setItem(STORAGE_KEY, JSON.stringify(data)) }
     catch (error) { console.error(...) }]. *)
Definition save (data : NoteStore) (b : Backend) : Backend :=
  (localStorage_setItem STORAGE_KEY (payload data) b).1.

(** What a save does to the storage. *)
Definition saveNotes (data : NoteStore) (st : Storage) : Storage :=
  held (save data (mkBackend st [])).

(** A timer of the event loop, set by [setTimeout]. *)
Record Timer := mkTimer {
  timer_id : nat;
  due : Z;
  timer_args : NoteStore
}.

(** The persistence side of the page: the timers set for the save, the
    [timeout] variable captured by the closure that [debounce] returns
    (undefined before the first call), and [localStorage]. *)
Record Persist := mkPersist {
  timers : list Timer;
  next_timer : nat;
  timeout : option nat;
  backend : Backend
}.

(** What the storage holds, and the values handed to [setItem] so far. *)
Definition storage (p : Persist) : Storage := held (backend p).
Definition written (p : Persist) : list jsstring := snd <$> setItem_calls (backend p).

Definition clearTimeout (h : option nat) (l : list Timer) : list Timer :=
  match h with
  | Some i => filter (λ t, timer_id t ≠ i) l
  | None => l
  end.

(** [debounce(func, wait)]: the function it returns, called with [args]
    at time [now], does
    [clearTimeout(timeout); timeout = setTimeout(() => func(...args), wait)].
    The timer keeps the arguments; [func] runs when it fires. *)
Definition debounce (wait : Z) (now : Z) (args : NoteStore) (p : Persist) : Persist :=
  let cleared := clearTimeout (timeout p) (timers p) in
  let h := next_timer p in
  mkPersist (cleared ++ [mkTimer h (now + wait) args]) (S h) (Some h) (backend p).

Definition wait_save : Z := 500.

(** [debouncedSave], made once by [debounce(..., 500)]. *)
Definition debouncedSave : Z → NoteStore → Persist → Persist := debounce wait_save.

(** One timer firing: the save runs on the arguments of the call that
    set the timer. *)
Definition fire (t : Timer) (p : Persist) : Persist :=
  mkPersist (filter (λ t', timer_id t' ≠ timer_id t) (timers p)) (next_timer p)
            (timeout p) (save (timer_args t) (backend p)).

(** The event loop reaching time [now]: the timers due by then fire, in
    the order they were set. *)
Definition elapse (now : Z) (p : Persist) : Persist :=
  foldl (λ acc t, fire t acc) p (filter (λ t, (due t ≤ now)%Z) (timers p)).

(** A change of the store at time [now]: the second effect of [Home]
    calls [debouncedSave(noteStore)]. *)
Definition storeChanged (now : Z) (data : NoteStore) (p : Persist) : Persist :=
  debouncedSave now data (elapse now p).

Fixpoint storeChanges (l : list (Z * NoteStore)) (p : Persist) : Persist :=
  match l with
  | [] => p
  | (now, data) :: r => storeChanges r (storeChanged now data p)
  end.

Definition initialPersist (st : Storage) : Persist :=
  mkPersist [] 0 None (mkBackend st []).

(** ** Properties of the store *)

(** The invariant of the store: an active id is the id of exactly one
    note of the list. *)
Definition notes_with_id (i : jsstring) (l : list Note) : list Note :=
  filter (λ n, id n = i) l.

Definition store_inv (s : NoteStore) : Prop :=
  ∀ a, activeNoteId s = Some a → length (notes_with_id a (notes s)) = 1.

(** The comparison [a <= b] of JavaScript on two strings: code unit by
    code unit, a prefix coming first. *)
Fixpoint str_leb (a b : jsstring) : bool :=
  match a, b with
  | [], _ => true
  | _ :: _, [] => false
  | x :: a', y :: b' => (x <? y)%N || ((x =? y)%N && str_leb a' b')
  end.

(** The order of two timestamps. *)
Definition ts_le (a b : jsstring) : Prop := str_leb a b = true.

(** The clock of a world never goes back. *)
Definition clock_monotone (w : World) : Prop :=
  ∀ i j, i ≤ j → ts_le (isoAt w i) (isoAt w j).

(** Every timestamp of the store was read from the clock by now, and no
    note was updated before it was created. *)
Definition stamped (w : World) (s : NoteStore) : Prop :=
  ∀ n, n ∈ notes s →
    ts_le (createdAt n) (updatedAt n) ∧
    ∀ k, calls w ≤ k → ts_le (updatedAt n) (isoAt w k).

(** What an edit may do to a note: nothing but its content and the time
    of its update change, and that time does not go back. *)
Definition edited (n n' : Note) : Prop :=
  id n' = id n ∧ createdAt n' = createdAt n ∧ ts_le (updatedAt n) (updatedAt n').

(** The note a click on the button creates in world [w]. *)
Definition created_note (w : World) : Note :=
  let k := calls w in
  mkNote (now36At w k ++ substring_from 2 (rand36At w (S k))) []
         (isoAt w (S (S k))) (isoAt w (S (S (S k)))).

(** The world after [n] platform calls more. *)
Definition later (n : nat) (w : World) : World :=
  mkWorld (isoAt w) (now36At w) (rand36At w) (n + calls w).

(** [n] clicks on the button, each after the cool-down of the previous
    one has elapsed. *)
Fixpoint clicks (n : nat) : list Event :=
  match n with
  | O => []
  | S n' => NewNoteClicked :: CooldownElapsed :: clicks n'
  end.

(** The notes that [n] clicks create from world [w], the first one
    first: a click makes four platform calls. *)
Fixpoint created_notes (n : nat) (w : World) : list Note :=
  match n with
  | O => []
  | S n' => created_note w :: created_notes n' (later 4 w)
  end.

(** What an edit with content [c], made in world [w] and leaving world
    [w'], does to note [n] when [a] is the active id. *)
Definition updated_as (a c : jsstring) (w w' : World) (n n' : Note) : Prop :=
  if decide (id n = a)
  then id n' = id n ∧ content n' = c ∧ createdAt n' = createdAt n ∧
       ∃ k, calls w ≤ k < calls w' ∧ updatedAt n' = isoAt w k
  else n' = n.

(** A burst of changes: every change comes less than the wait after the
    previous one, and not before it. *)
Fixpoint rapid (prev : Z) (l : list (Z * NoteStore)) : Prop :=
  match l with
  | [] => True
  | (now, _) :: r => (prev ≤ now < prev + wait_save)%Z ∧ rapid now r
  end.

(** At most one save is pending, and it is the one [timeout] names. *)
Definition persist_inv (p : Persist) : Prop :=
  timers p = [] ∨
  ∃ t, timers p = [t] ∧ timeout p = Some (timer_id t) ∧ timer_id t < next_timer p.

(** The tokens of the text that [JSON.stringify] writes for a store. *)
Definition Note_tokens (n : Note) : list token :=
  [TLBrace; TString (js "id"); TColon; TString (id n); TComma;
   TString (js "content"); TColon; TString (content n); TComma;
   TString (js "createdAt"); TColon; TString (createdAt n); TComma;
   TString (js "updatedAt"); TColon; TString (updatedAt n); TRBrace].

Fixpoint notes_tokens (l : list Note) : list token :=
  match l with
  | [] => []
  | [n] => Note_tokens n
  | n :: r => Note_tokens n ++ TComma :: notes_tokens r
  end.

Definition activeNoteId_token (a : option jsstring) : token :=
  match a with
  | Some i => TString i
  | None => TNull
  end.

Definition store_tokens (s : NoteStore) : list token :=
  [TLBrace; TString (js "notes"); TColon; TLBrack] ++ notes_tokens (notes s) ++
  [TRBrack; TComma; TString (js "activeNoteId"); TColon;
   activeNoteId_token (activeNoteId s); TRBrace].

(** A result that [parse] gives with fuel [f] leaves fewer tokens than
    it was given, and is given again with any fuel that is at least
    twice the number of tokens plus [margin]. *)
Definition enough_for {A} (parse : nat → list token → option (A * list token))
    (margin : nat) (f : nat) : Prop :=
  ∀ ts a r, parse f ts = Some (a, r) →
    length r < length ts ∧
    ∀ f', 2 * length ts + margin ≤ f' → parse f' ts = Some (a, r).

(** World [w'] comes after world [w] in a run: the same streams, and
    no fewer platform calls. *)
Definition extends (w w' : World) : Prop :=
  isoAt w' = isoAt w ∧ now36At w' = now36At w ∧ rand36At w' = rand36At w ∧
  calls w ≤ calls w'.

(** ** What the page shows *)

(** [noteStore.notes.find(n => n.id === noteStore.activeNoteId)]: no id
    is [null], so nothing is found when no note is active. *)
Definition activeNote (s : NoteStore) : option Note :=
  match activeNoteId s with
  | Some a => find_note a (notes s)
  | None => None
  end.

(** [activeNote?.content || ''] *)
Definition noteContent (s : NoteStore) : jsstring :=
  match activeNote s with
  | Some n => content n
  | None => []
  end.

(** The line feed, U+000A. *)
Definition newline : N := 10.

(** [s.split('\n')[0]] *)
Fixpoint first_line (s : jsstring) : jsstring :=
  match s with
  | [] => []
  | c :: r => if (c =? newline)%N then [] else c :: first_line r
  end.

(** The title of a note in the list:
    [note.content ? note.content.split('\n')[0] || 'Empty note' : 'New Note'] *)
Definition noteTitle (n : Note) : jsstring :=
  match content n with
  | [] => js "New Note"
  | _ :: _ =>
      match first_line (content n) with
      | [] => js "Empty note"
      | c :: r => c :: r
      end
  end.

Fixpoint has_newline (s : jsstring) : bool :=
  match s with
  | [] => false
  | c :: r => (c =? newline)%N || has_newline r
  end.

(** ** [generateId]: the digits of the time

    [Date.now()] is a whole number of milliseconds, and [n.toString(36)]
    writes a whole number with the digits 0 to 9 and a to z, the most
    significant first, with no leading zero. *)

Definition digit36 (d : N) : N :=
  (if d <? 10 then 48 + d else 87 + d)%N.

Fixpoint toString36_from (fuel : nat) (n : N) (acc : jsstring) : jsstring :=
  match fuel with
  | O => acc
  | S fuel' =>
      let acc' := digit36 (n mod 36) :: acc in
      if (n / 36 =? 0)%N then acc' else toString36_from fuel' (n / 36) acc'
  end.

Definition toString36 (n : N) : jsstring :=
  toString36_from (S (N.size_nat n)) n [].

(** The number a digit of base 36 stands for, and the number a string
    of such digits stands for after the digits read so far gave [acc]. *)
Definition digit_value36 (c : N) : N :=
  (if c <? 58 then c - 48 else c - 87)%N.

Fixpoint value36 (acc : N) (s : jsstring) : N :=
  match s with
  | [] => acc
  | c :: r => value36 (acc * 36 + digit_value36 c) r
  end.

(** The readings of [Date.now()] of a world are the numbers [ms]. *)
Definition clocked (ms : nat → N) (w : World) : Prop :=
  ∀ k, now36At w k = toString36 (ms k).

(** The times that [toString(36)] writes with eight digits: from June
    1972 to May 2059. *)
Definition eight_digits (t : N) : Prop := (36 ^ 7 ≤ t < 36 ^ 8)%N.

(** ** Runs of the page as the list lets them be

    The list shows the notes of the store, and a click on a note or on
    its delete button carries the id of that note. *)
Definition ids (s : NoteStore) : list jsstring := id <$> notes s.

Definition listed (e : Event) (s : NoteStore) : Prop :=
  match e with
  | NoteClicked i | DeleteClicked i => i ∈ ids s
  | _ => True
  end.

(** The id that a click on the button would give is the id of no note. *)
Definition fresh_id (e : Event) (app : App) (w : World) : Prop :=
  match e with
  | NewNoteClicked => isCreating app = false → (generateId w).1 ∉ ids (noteStore app)
  | _ => True
  end.

Fixpoint ui_run (es : list Event) (app : App) (w : World) : Prop :=
  match es with
  | [] => True
  | e :: es' =>
      listed e (noteStore app) ∧ fresh_id e app w ∧
      ui_run es' (handle e app w).1 (handle e app w).2
  end.

(** The ids of the list differ, and the active id is one of them. *)
Definition well_formed (s : NoteStore) : Prop :=
  NoDup (ids s) ∧ ∀ a, activeNoteId s = Some a → a ∈ ids s.

(** ** Changes that are not a burst *)

(** Every change comes at least the wait after the previous one. *)
Fixpoint spaced (prev : Z) (l : list (Z * NoteStore)) : Prop :=
  match l with
  | [] => True
  | (now, _) :: r => (prev + wait_save ≤ now)%Z ∧ spaced now r
  end.

(** ** The editor ([NoteEditor])

    [updateCurrentNote] is made again by [useCallback] when the active
    id changes, and [debouncedUpdate] is made again by [useMemo] when
    [updateCurrentNote] changes: a new closure of [debounce], with a
    [timeout] variable of its own.  A timer set through an older
    closure stays in the event loop and calls the [updateCurrentNote]
    of its time. *)

Record EditTimer := mkEditTimer {
  edit_id : nat;
  edit_due : Z;
  edit_value : jsstring;
  edit_callback : option jsstring   (* the active id its [onContentChange] was made with *)
}.

(** The page with its editor: the store of [Home]; the props of the
    editor at its last render, [onContentChange] (stood for by the
    active id it was made with) and [content]; the [localContent] of
    the editor; the timers set by [debouncedUpdate]; and the [timeout]
    variable of the current [debouncedUpdate]. *)
Record Page := mkPage {
  page_store : NoteStore;
  onContentChange : option jsstring;
  contentProp : jsstring;
  localContent : jsstring;
  edit_timers : list EditTimer;
  edit_next : nat;
  edit_timeout : option nat
}.

Definition wait_edit : Z := 100.

(** The page once mounted on store [s]. *)
Definition mounted (s : NoteStore) : Page :=
  mkPage s (activeNoteId s) (noteContent s) (noteContent s) [] 0 None.

(** [Home] has set the store to [s'] and the page is rendered again:
    the effect of the editor copies the [content] prop into
    [localContent] when the prop has changed; [debouncedUpdate] is made
    again, its [timeout] undefined, when the active id has changed. *)
Definition rerender (s' : NoteStore) (p : Page) : Page :=
  mkPage s' (activeNoteId s') (noteContent s')
         (if decide (noteContent s' = contentProp p) then localContent p
          else noteContent s')
         (edit_timers p) (edit_next p)
         (if decide (activeNoteId s' = onContentChange p) then edit_timeout p
          else None).

Definition clearEditTimeout (h : option nat) (l : list EditTimer) : list EditTimer :=
  match h with
  | Some i => filter (λ t, edit_id t ≠ i) l
  | None => l
  end.

(** [handleChange] on an input of value [v] at time [now]:
    [setLocalContent(newValue); debouncedUpdate(newValue)]. *)
Definition handleChange (now : Z) (v : jsstring) (p : Page) : Page :=
  let cleared := clearEditTimeout (edit_timeout p) (edit_timers p) in
  let h := edit_next p in
  mkPage (page_store p) (onContentChange p) (contentProp p) v
         (cleared ++ [mkEditTimer h (now + wait_edit) v (onContentChange p)])
         (S h) (Some h).

(** A timer of the editor firing: [onContentChange(value)]. *)
Definition fireEdit (t : EditTimer) (p : Page) : M Page :=
  let p1 := mkPage (page_store p) (onContentChange p) (contentProp p) (localContent p)
                   (filter (λ t', edit_id t' ≠ edit_id t) (edit_timers p))
                   (edit_next p) (edit_timeout p) in
  let* r := updateCurrentNote_of (edit_callback t) (edit_value t) (page_store p1) in
  ret (match r with
       | Some s' => rerender s' p1
       | None => p1
       end).

Fixpoint fireEdits (l : list EditTimer) (p : Page) : M Page :=
  match l with
  | [] => ret p
  | t :: r => let* p' := fireEdit t p in fireEdits r p'
  end.

(** The event loop reaching time [now]: the timers of the editor due by
    then fire, in the order they were set. *)
Definition elapseEdits (now : Z) (p : Page) : M Page :=
  fireEdits (filter (λ t, (edit_due t ≤ now)%Z) (edit_timers p)) p.

(** Inputs in the editor, each at its time. *)
Fixpoint typing (l : list (Z * jsstring)) (p : Page) : M Page :=
  match l with
  | [] => ret p
  | (now, v) :: r =>
      let* p1 := elapseEdits now p in
      typing r (handleChange now v p1)
  end.

(** A burst of inputs: each less than the wait after the previous one. *)
Fixpoint rapid_typing (prev : Z) (l : list (Z * jsstring)) : Prop :=
  match l with
  | [] => True
  | (now, _) :: r => (prev ≤ now < prev + wait_edit)%Z ∧ rapid_typing now r
  end.

(** A click on a note of the list at time [now]. *)
Definition clickNote (now : Z) (i : jsstring) (p : Page) : M Page :=
  let* p1 := elapseEdits now p in
  ret (rerender (selectNote i (page_store p1)) p1).

(** A click on the button at time [now], outside the cool-down. *)
Definition clickNew (now : Z) (p : Page) : M Page :=
  let* p1 := elapseEdits now p in
  let* app := createNewNote (mkApp (page_store p1) false) in
  ret (rerender (noteStore app) p1).

(** The page was rendered on its store, and no input is pending. *)
Definition settled (p : Page) : Prop :=
  onContentChange p = activeNoteId (page_store p) ∧
  contentProp p = noteContent (page_store p) ∧
  edit_timers p = [].

(** ** Sample data *)

Definition quoted (s : jsstring) : jsstring := dquote :: s ++ [dquote].

(** A snapshot whose active id names no note. *)
Definition dangling_snapshot : jsstring :=
  js "{" ++ quoted (js "notes") ++ js ":[]," ++ quoted (js "activeNoteId") ++ js ":" ++
  quoted (js "x") ++ js "}".

(** A clock that ticks between its third and its fourth reading. *)
Definition ticking_world : World :=
  mkWorld (λ k, if decide (k < 3) then js "2024-05-01T10:00:00.000Z"
                else js "2024-05-01T10:00:00.001Z")
          (λ _, js "lvo2k5c0") (λ _, js "0.4fzyo82mvyr") 0.

(** A clock that is set back a millisecond between its third and its
    fourth reading. *)
Definition set_back_world : World :=
  mkWorld (λ k, if decide (k < 3) then js "2024-05-01T10:00:00.001Z"
                else js "2024-05-01T10:00:00.000Z")
          (λ _, js "lvo2k5c0") (λ _, js "0.4fzyo82mvyr") 0.

(** A world whose readings of [Date.now()] are later. *)
Definition later_world : World :=
  mkWorld (λ _, js "2024-05-01T10:00:00.400Z") (λ _, js "lvo2k5n4")
          (λ _, js "0.4fzyo82mvyr") 0.

Definition sample_note : Note :=
  mkNote (js "lvo2k5c04fzyo82mvyr") (js "Hello")
         (js "2024-05-01T10:00:00.000Z") (js "2024-05-01T10:00:00.001Z").

Definition sample_store : NoteStore := mkStore [sample_note] (Some (id sample_note)).

(** A click on the button, then an edit through the handler of the
    render that followed. *)
Definition sample_run : list Event :=
  [NewNoteClicked; ContentChanged (Some (js "lvo2k5c04fzyo82mvyr")) (js "Hello")].

(** The store after a click on the button from the empty store, in the
    world of the samples: the note created is active. *)
Definition clicked_store : NoteStore :=
  noteStore (createNewNote initialApp ticking_world).1.

Definition sample_storage : Storage := mkStorage ∅ 5000.

(** Two changes of the store, 100 ms apart. *)
Definition sample_burst : list (Z * NoteStore) :=
  [(0%Z, emptyStore); (100%Z, sample_store)].

(** A world whose clock gives the milliseconds 1714557600000 + 400 k. *)
Definition ms_sample (k : nat) : N := (1714557600000 + 400 * N.of_nat k)%N.

Definition clocked_world : World :=
  mkWorld (λ _, js "2024-05-01T10:00:00.000Z") (λ k, toString36 (ms_sample k))
          (λ _, js "0.4fzyo82mvyr") 0.

Definition other_note : Note :=
  mkNote (js "lvo2k5n44fzyo82mvyr") (js "Other")
         (js "2024-05-01T10:00:00.400Z") (js "2024-05-01T10:00:00.400Z").

Definition two_notes : NoteStore :=
  mkStore [other_note; sample_note] (Some (id sample_note)).

(** A note whose content has characters outside ASCII: an accented
    letter, the euro sign, a pair of surrogates and a surrogate that
    stands alone. *)
Definition unicode_note : Note :=
  mkNote (js "lvo2k5n44fzyo82mvyr") [233; 8364; 55357; 56832; 56832; 10; 34]%N
         (js "2024-05-01T10:00:00.400Z") (js "2024-05-01T10:00:00.400Z").

Definition unicode_store : NoteStore := mkStore [unicode_note; sample_note] None.

(** A storage that takes the text of the empty store and no longer one. *)
Definition small_storage : Storage := mkStorage ∅ 40.

(** Three changes of the store, each a second after the one before. *)
Definition sample_changes : list (Z * NoteStore) :=
  [(0%Z, emptyStore); (1000%Z, sample_store); (2000%Z, two_notes)].

(** * Theorems *)

(** ** Selecting and deleting *)






Lemma deleteNote_elem_of i s n :
  n ∈ notes (deleteNote i s) ↔ n ∈ notes s ∧ id n ≠ i.
Proof. unfold deleteNote; simpl. rewrite list_elem_of_filter. tauto. Qed.

Lemma filter_all {A} (P : A → Prop) `{!∀ x, Decision (P x)} (l : list A) :
  (∀ x, x ∈ l → P x) → filter P l = l.
Proof.
  induction l as [|x l IH]; intros HP; [reflexivity|].
  rewrite filter_cons_True by (apply HP; left).
  f_equal. apply IH. intros y Hy. apply HP. by right.
Qed.

Lemma notes_with_id_fresh a l :
  (∀ n, n ∈ l → id n ≠ a) → notes_with_id a l = [].
Proof.
  intros H. unfold notes_with_id. induction l as [|n l IH]; [done|].
  rewrite filter_cons_False by (apply H; left).
  apply IH. intros m Hm. apply H. by right.
Qed.

(** In a store that has the invariant, an id that no note has is not
    the active id. *)
Lemma store_inv_absent_not_active i s :
  store_inv s → (∀ n, n ∈ notes s → id n ≠ i) → activeNoteId s ≠ Some i.
Proof.
  intros Hinv Habs Ha. specialize (Hinv i Ha).
  by rewrite notes_with_id_fresh in Hinv.
Qed.

(** C4.  On a store that has the invariant of the data model,
    [deleteNote i] keeps exactly the notes whose id is not [i], in their
    order; the active id is cleared when it is [i] and kept otherwise;
    and when no note has the id [i] the store is unchanged. *)
Theorem deleteNote_spec i s :
  store_inv s →
  notes (deleteNote i s) = filter (λ n, id n ≠ i) (notes s) ∧
  (∀ n, n ∈ notes (deleteNote i s) ↔ n ∈ notes s ∧ id n ≠ i) ∧
  (activeNoteId s = Some i → activeNoteId (deleteNote i s) = None) ∧
  (activeNoteId s ≠ Some i → activeNoteId (deleteNote i s) = activeNoteId s) ∧
  ((∀ n, n ∈ notes s → id n ≠ i) → deleteNote i s = s).
Proof.
  intros Hinv.
  split; [reflexivity|].
  split; [intros n; apply deleteNote_elem_of|].
  split; [intros Ha; unfold deleteNote; simpl; by rewrite decide_True|].
  split; [intros Ha; unfold deleteNote; simpl; by rewrite decide_False|].
  intros Habs. pose proof (store_inv_absent_not_active i s Hinv Habs) as Ha.
  destruct s as [l a]; unfold deleteNote; simpl in *.
  rewrite decide_False by done. f_equal. by apply filter_all.
Qed.

Lemma store_inv_two_notes : store_inv two_notes.
Proof. intros a [= <-]. reflexivity. Qed.

Lemma deleteNote_spec_witness :
  notes (deleteNote (id sample_note) two_notes) = [other_note] ∧
  activeNoteId (deleteNote (id sample_note) two_notes) = None ∧
  deleteNote (id other_note) two_notes = mkStore [sample_note] (Some (id sample_note)) ∧
  deleteNote (js "x") two_notes = two_notes.
Proof.
  destruct (deleteNote_spec (id sample_note) two_notes store_inv_two_notes)
    as (Hn & _ & Hactive & _).
  destruct (deleteNote_spec (js "x") two_notes store_inv_two_notes)
    as (_ & _ & _ & _ & Habsent).
  split; [rewrite Hn; reflexivity|]. split; [apply Hactive; reflexivity|].
  split; [reflexivity|].
  apply Habsent. intros n Hn'.
  apply elem_of_cons in Hn' as [->|Hn']; [discriminate|].
  apply list_elem_of_singleton in Hn'. subst n. discriminate.
Defined.

(** ** The order of the notes *)

Lemma map_update_ids a c l w :
  (id <$> (map_update a c l w).1) = id <$> l.
Proof.
  revert w. induction l as [|n l IH]; intros w; [reflexivity|].
  cbn [map_update]. unfold bind, ret, new_Date_toISOString.
  destruct (decide (Some (id n) = a)).
  - specialize (IH (tick w)). destruct (map_update a c l (tick w)) as [l' w'].
    cbn in *. by f_equal.
  - specialize (IH w). destruct (map_update a c l w) as [l' w'].
    cbn in *. by f_equal.
Qed.

Lemma updateCurrentNote_falsy r c s w :
  truthy r = false → updateCurrentNote r c s w = (s, w).
Proof. intros Hf. unfold updateCurrentNote, updateCurrentNote_of, bind. by rewrite Hf. Qed.

Lemma updateCurrentNote_unfold r c s w :
  truthy r = true →
  updateCurrentNote r c s w
  = (mkStore (map_update (activeNoteId s) c (notes s) w).1 (activeNoteId s),
     (map_update (activeNoteId s) c (notes s) w).2).
Proof.
  intros Ht. unfold updateCurrentNote, updateCurrentNote_of, bind, ret. rewrite Ht.
  cbn [negb]. by destruct (map_update (activeNoteId s) c (notes s) w).
Qed.

Lemma updateCurrentNote_ids r c s w :
  (id <$> notes (updateCurrentNote r c s w).1) = id <$> notes s.
Proof.
  destruct (truthy r) eqn:Ht.
  - rewrite updateCurrentNote_unfold by done. apply map_update_ids.
  - by rewrite updateCurrentNote_falsy.
Qed.

(** C10.  Selecting leaves the list as it is; an edit leaves the ids of
    the list, place by place, whichever render made its handler;
    deleting leaves a sublist of the list: none of the three moves one
    note past another. *)
Theorem order_preserved s :
  (∀ i, notes (selectNote i s) = notes s) ∧
  (∀ r c w, (id <$> notes (updateCurrentNote r c s w).1) = id <$> notes s) ∧
  (∀ i, notes (deleteNote i s) `sublist_of` notes s).
Proof.
  split; [reflexivity|]. split; [intros; apply updateCurrentNote_ids|].
  intros i. unfold deleteNote; simpl. apply sublist_filter.
Qed.

(** ** Editing the active note *)

Lemma extends_refl w : extends w w.
Proof. by repeat split. Qed.

Lemma extends_trans w1 w2 w3 : extends w1 w2 → extends w2 w3 → extends w1 w3.
Proof.
  intros (Hi & Hn & Hr & Hc) (Hi' & Hn' & Hr' & Hc').
  repeat split; [congruence..|lia].
Qed.

Lemma extends_tick w : extends w (tick w).
Proof. repeat split. simpl. lia. Qed.

Lemma updated_as_weaken a c w0 w w' n n' :
  extends w0 w → updated_as a c w w' n n' → updated_as a c w0 w' n n'.
Proof.
  intros (Hi & _ & _ & Hc). unfold updated_as.
  destruct (decide (id n = a)); [|done].
  intros (? & ? & ? & k & Hk & Hu). repeat split; [done..|].
  exists k. split; [lia|]. by rewrite Hu, Hi.
Qed.

Lemma map_update_spec a c l w :
  extends w (map_update (Some a) c l w).2 ∧
  Forall2 (updated_as a c w (map_update (Some a) c l w).2) l (map_update (Some a) c l w).1.
Proof.
  revert w. induction l as [|n l IH]; intros w.
  { split; [apply extends_refl|constructor]. }
  cbn [map_update]. unfold bind, ret, new_Date_toISOString.
  destruct (decide (Some (id n) = Some a)) as [Heq|Hne].
  - destruct (IH (tick w)) as [Hext HF].
    destruct (map_update (Some a) c l (tick w)) as [l' w']. cbn in *.
    split; [eapply extends_trans; [apply extends_tick|done]|].
    constructor.
    + unfold updated_as. rewrite decide_True by congruence. cbn.
      repeat split. exists (calls w). split; [|done].
      destruct Hext as (_ & _ & _ & Hc). cbn in Hc. lia.
    + eapply Forall2_impl; [exact HF|].
      intros x y. apply updated_as_weaken, extends_tick.
  - destruct (IH w) as [Hext HF].
    destruct (map_update (Some a) c l w) as [l' w']. cbn in *.
    split; [done|]. constructor; [|done].
    unfold updated_as. rewrite decide_False by congruence. done.
Qed.

(** No id is [null]: with no active id the list is copied as it is. *)
Lemma map_update_None c l w : map_update None c l w = (l, w).
Proof.
  induction l as [|n l IH]; [reflexivity|].
  cbn [map_update]. unfold bind, ret. rewrite decide_False by done. by rewrite IH.
Qed.

Lemma truthy_Some a : truthy (Some a) = true ↔ a ≠ [].
Proof. destruct a; simpl; split; congruence. Qed.

Lemma updateCurrentNote_truthy r c s w a :
  truthy r = true → activeNoteId s = Some a →
  activeNoteId (updateCurrentNote r c s w).1 = Some a ∧
  extends w (updateCurrentNote r c s w).2 ∧
  Forall2 (updated_as a c w (updateCurrentNote r c s w).2)
          (notes s) (notes (updateCurrentNote r c s w).1).
Proof.
  intros Ht Ha. rewrite updateCurrentNote_unfold by done. rewrite Ha.
  cbn [fst snd activeNoteId notes]. split; [done|]. apply map_update_spec.
Qed.

(** With no active id in the state, the handler leaves the store and the
    clock as they are, whichever render made it. *)
Lemma updateCurrentNote_inactive r c s w :
  activeNoteId s = None → updateCurrentNote r c s w = (s, w).
Proof.
  intros Ha. destruct (truthy r) eqn:Ht; [|by apply updateCurrentNote_falsy].
  rewrite updateCurrentNote_unfold by done. rewrite Ha, map_update_None.
  destruct s as [l a]. cbn in *. by subst a.
Qed.

(** C5, as the code has it.  The guard of [updateCurrentNote] reads the
    active id of the render that made the handler, not the active id of
    the state it updates.  When that id is null or empty the store and
    the clock are left as they are, whatever the state; otherwise the
    notes of the state that have its active id take the content and a
    reading of the clock for time of update, and nothing else changes.
    The editor calls the handler from a timer, 100 ms after the input:
    a handler made while no note was active, called after the button was
    clicked, finds a note active and leaves its content as it was. *)
Theorem updateCurrentNote_stale_guard :
  (∀ r c s w, truthy r = false → updateCurrentNote r c s w = (s, w)) ∧
  (∀ r c s w a, truthy r = true → activeNoteId s = Some a →
     activeNoteId (updateCurrentNote r c s w).1 = Some a ∧
     extends w (updateCurrentNote r c s w).2 ∧
     Forall2 (updated_as a c w (updateCurrentNote r c s w).2)
             (notes s) (notes (updateCurrentNote r c s w).1)) ∧
  activeNoteId emptyStore = None ∧
  activeNote clicked_store = Some (created_note ticking_world) ∧
  (updateCurrentNote (activeNoteId emptyStore) (js "typed") clicked_store
                     (later 4 ticking_world)).1 = clicked_store ∧
  noteContent (updateCurrentNote (activeNoteId emptyStore) (js "typed") clicked_store
                                 (later 4 ticking_world)).1 = [].
Proof.
  split; [apply updateCurrentNote_falsy|]. split; [apply updateCurrentNote_truthy|].
  repeat split.
Qed.

(** ** Creating notes *)

Lemma later_later n m w : later n (later m w) = later (n + m) w.
Proof. unfold later; cbn. f_equal. lia. Qed.

Lemma later_0 w : later 0 w = w.
Proof. by destruct w. Qed.

Lemma createNewNote_idle app w :
  isCreating app = false →
  createNewNote app w
  = (mkApp (mkStore (created_note w :: notes (noteStore app))
                    (Some (id (created_note w)))) true,
     later 4 w).
Proof. intros Hc. unfold createNewNote. rewrite Hc. reflexivity. Qed.

Lemma createNewNote_cooling app w :
  isCreating app = true → createNewNote app w = (app, w).
Proof. intros Hc. unfold createNewNote. by rewrite Hc. Qed.

Lemma length_created_notes n w : length (created_notes n w) = n.
Proof. revert w. induction n as [|n IH]; intros w; cbn; [done|]. by rewrite IH. Qed.

Lemma run_clicks n app w :
  isCreating app = false →
  run (clicks n) app w
  = (mkApp (mkStore (reverse (created_notes n w) ++ notes (noteStore app))
                    (from_option (λ x, Some (id x)) (activeNoteId (noteStore app))
                                 (last (created_notes n w))))
           false,
     later (4 * n) w).
Proof.
  revert app w. induction n as [|n IH]; intros app w Hc.
  { cbn. rewrite later_0. destruct app as [s b]; cbn in *. subst b.
    by destruct s. }
  cbn [clicks run handle]. unfold bind at 1. rewrite createNewNote_idle by done.
  unfold bind at 1. unfold ret at 1. unfold cooldownElapsed. cbn [noteStore].
  rewrite IH by done. cbn [noteStore notes activeNoteId isCreating created_notes].
  f_equal; [|rewrite later_later; f_equal; lia].
  f_equal. f_equal.
  - by rewrite reverse_cons, <- app_assoc.
  - destruct (created_notes n (later 4 w)) as [|y l] eqn:E; [done|].
    rewrite last_cons_cons. destruct (last (y :: l)) eqn:E2; [done|].
    by apply last_None in E2.
Qed.

Lemma generateId_distinct w1 w2 :
  length (now36At w1 (calls w1)) = length (now36At w2 (calls w2)) →
  now36At w1 (calls w1) ≠ now36At w2 (calls w2) →
  (generateId w1).1 ≠ (generateId w2).1.
Proof.
  intros Hl Hne Heq. apply Hne. cbn in Heq.
  by apply (app_inj_1 _ _ _ _ Hl) in Heq as [? _].
Qed.

(** C6, as the code has it.  Outside the cool-down, [createNewNote]
    puts in front of the list a note with the id that [generateId]
    gives, an empty content, and for the times of creation and of update
    the next two readings of the clock, and makes it active; during the
    cool-down it does nothing.  The ids generated at two readings of
    [Date.now()] that differ, and have as many digits in base 36, differ.
    From the empty store, [n] clicks give a list of length [n], the note
    of the last click first, and that note is the active one. *)
Theorem createNewNote_spec :
  (∀ app w, isCreating app = false →
     createNewNote app w
     = (mkApp (mkStore (created_note w :: notes (noteStore app))
                       (Some (id (created_note w)))) true,
        later 4 w)) ∧
  (∀ app w, isCreating app = true → createNewNote app w = (app, w)) ∧
  (∀ w1 w2,
     length (now36At w1 (calls w1)) = length (now36At w2 (calls w2)) →
     now36At w1 (calls w1) ≠ now36At w2 (calls w2) →
     (generateId w1).1 ≠ (generateId w2).1) ∧
  (∀ n w,
     notes (noteStore (run (clicks n) initialApp w).1) = reverse (created_notes n w) ∧
     length (notes (noteStore (run (clicks n) initialApp w).1)) = n ∧
     activeNoteId (noteStore (run (clicks n) initialApp w).1)
     = id <$> head (notes (noteStore (run (clicks n) initialApp w).1))).
Proof.
  split; [apply createNewNote_idle|]. split; [apply createNewNote_cooling|].
  split; [apply generateId_distinct|].
  intros n w. rewrite run_clicks by done.
  cbn [fst noteStore notes activeNoteId initialApp emptyStore].
  rewrite app_nil_r. split; [done|]. split.
  { by rewrite length_reverse, length_created_notes. }
  rewrite head_reverse. by destruct (last (created_notes n w)).
Qed.

Lemma createNewNote_spec_witness :
  createNewNote initialApp ticking_world
  = (mkApp (mkStore [created_note ticking_world]
                    (Some (id (created_note ticking_world)))) true,
     later 4 ticking_world) ∧
  createNewNote (mkApp emptyStore true) ticking_world
  = (mkApp emptyStore true, ticking_world) ∧
  (generateId ticking_world).1 ≠ (generateId later_world).1.
Proof.
  destruct createNewNote_spec as (Hidle & Hcool & Hid & _).
  split; [|split].
  - apply (Hidle initialApp ticking_world). reflexivity.
  - apply (Hcool (mkApp emptyStore true) ticking_world). reflexivity.
  - apply (Hid ticking_world later_world); [reflexivity|discriminate].
Defined.

(** C6, as the claim has it, fails: the two times of a new note are two
    readings of the clock, and the clock may tick between them. *)
Lemma createNewNote_two_clock_readings :
  ¬ (∀ app w, isCreating app = false →
       ∀ n, head (notes (noteStore (createNewNote app w).1)) = Some n →
            createdAt n = updatedAt n).
Proof.
  intros H.
  specialize (H initialApp ticking_world eq_refl (created_note ticking_world) eq_refl).
  discriminate H.
Qed.

(** ** The order of timestamps *)

Lemma str_leb_refl a : str_leb a a = true.
Proof.
  induction a as [|x a IH]; [reflexivity|]. cbn [str_leb].
  by rewrite N.eqb_refl, IH, orb_true_r.
Qed.

Lemma str_leb_trans a b c :
  str_leb a b = true → str_leb b c = true → str_leb a c = true.
Proof.
  revert b c. induction a as [|x a IH]; intros [|y b] [|z c]; cbn [str_leb]; try done.
  intros Hab Hbc.
  apply orb_true_iff in Hab as [Hab|[Hxy Hab]%andb_true_iff];
    apply orb_true_iff in Hbc as [Hbc|[Hyz Hbc]%andb_true_iff];
    apply orb_true_iff.
  - left. apply N.ltb_lt in Hab, Hbc. apply N.ltb_lt. lia.
  - left. apply N.ltb_lt in Hab. apply N.eqb_eq in Hyz. apply N.ltb_lt. lia.
  - left. apply N.eqb_eq in Hxy. apply N.ltb_lt in Hbc. apply N.ltb_lt. lia.
  - right. apply N.eqb_eq in Hxy, Hyz. apply andb_true_iff. split.
    + apply N.eqb_eq. lia.
    + by apply (IH b c).
Qed.

Lemma ts_le_refl a : ts_le a a.
Proof. apply str_leb_refl. Qed.

Lemma ts_le_trans a b c : ts_le a b → ts_le b c → ts_le a c.
Proof. apply str_leb_trans. Qed.

(** ** The timestamps of the notes *)

Lemma stamped_extends w w' s : extends w w' → stamped w s → stamped w' s.
Proof.
  intros (Hi & _ & _ & Hc) Hs n Hn. destruct (Hs n Hn) as [Hcu Hk].
  split; [done|]. intros k Hle. rewrite Hi. apply Hk. lia.
Qed.

Lemma clock_monotone_extends w w' : extends w w' → clock_monotone w → clock_monotone w'.
Proof. intros (Hi & _) Hm i j Hij. rewrite Hi. by apply Hm. Qed.

Lemma later_extends n w : extends w (later n w).
Proof. repeat split. cbn. lia. Qed.

Lemma stamped_created w s :
  clock_monotone w → stamped w s →
  stamped (later 4 w) (mkStore (created_note w :: notes s) (Some (id (created_note w)))).
Proof.
  intros Hm Hs n Hn. cbn in Hn. apply elem_of_cons in Hn as [->|Hn].
  - cbn. split; [apply Hm; lia|]. intros k Hk. apply Hm. lia.
  - by apply (stamped_extends w (later 4 w) s (later_extends 4 w) Hs).
Qed.

Lemma updated_as_edited a c w w' s n n' :
  clock_monotone w → stamped w s → n ∈ notes s →
  updated_as a c w w' n n' → edited n n'.
Proof.
  intros Hm Hs Hn. unfold updated_as, edited.
  destruct (decide (id n = a)) as [_|_].
  - intros (Hid & _ & Hca & k & Hk & Hu). repeat split; [done..|].
    rewrite Hu. apply (Hs n Hn). lia.
  - intros ->. repeat split. apply ts_le_refl.
Qed.

Lemma Forall2_elem_of_l {A B} (R : A → B → Prop) l k (P : A → B → Prop) :
  Forall2 R l k → (∀ x y, x ∈ l → R x y → P x y) → Forall2 P l k.
Proof.
  induction 1 as [|x y l k HR HF IH]; intros HP; constructor.
  - apply HP; [left|done].
  - apply IH. intros x' y' Hx'. apply HP. by right.
Qed.

Lemma edited_refl n : edited n n.
Proof. repeat split. apply ts_le_refl. Qed.

(** An edit either leaves the store and the clock as they are, or
    updates the notes that have the active id of the state. *)
Lemma updateCurrentNote_cases r c s w :
  updateCurrentNote r c s w = (s, w) ∨
  ∃ a, activeNoteId s = Some a ∧
       activeNoteId (updateCurrentNote r c s w).1 = Some a ∧
       extends w (updateCurrentNote r c s w).2 ∧
       Forall2 (updated_as a c w (updateCurrentNote r c s w).2)
               (notes s) (notes (updateCurrentNote r c s w).1).
Proof.
  destruct (truthy r) eqn:Ht; [|left; by apply updateCurrentNote_falsy].
  destruct (activeNoteId s) as [a|] eqn:Ha; [|left; by apply updateCurrentNote_inactive].
  right. exists a. split; [done|]. by apply updateCurrentNote_truthy.
Qed.

Lemma updateCurrentNote_edited r c s w :
  clock_monotone w → stamped w s →
  Forall2 edited (notes s) (notes (updateCurrentNote r c s w).1).
Proof.
  intros Hm Hs. destruct (updateCurrentNote_cases r c s w) as [->|(a & _ & _ & _ & HF)].
  - cbn. apply Forall_Forall2_diag, Forall_forall. intros n _. apply edited_refl.
  - eapply Forall2_elem_of_l; [exact HF|].
    intros n n' Hn. by apply (updated_as_edited a c w _ s).
Qed.

Lemma updateCurrentNote_extends r c s w : extends w (updateCurrentNote r c s w).2.
Proof.
  destruct (updateCurrentNote_cases r c s w) as [->|(a & _ & _ & Hext & _)];
    [apply extends_refl|done].
Qed.

Lemma stamped_updated r c s w :
  clock_monotone w → stamped w s →
  stamped (updateCurrentNote r c s w).2 (updateCurrentNote r c s w).1.
Proof.
  intros Hm Hs.
  destruct (updateCurrentNote_cases r c s w) as [->|(a & _ & _ & Hext & HF)]; [done|].
  intros n' Hn'.
  apply list_elem_of_lookup in Hn' as [i Hi].
  destruct (Forall2_lookup_r _ _ _ _ _ HF Hi) as (n & Hni & Hup).
  assert (Hn : n ∈ notes s) by (apply list_elem_of_lookup; eauto).
  destruct (Hs n Hn) as [Hcu Hk].
  destruct Hext as (Hiso & _ & _ & Hc).
  unfold updated_as in Hup. destruct (decide (id n = a)) as [_|_].
  - destruct Hup as (_ & _ & Hca & k & Hkk & Hu). rewrite Hca, Hu. split.
    + eapply ts_le_trans; [exact Hcu|]. apply Hk. lia.
    + intros j Hj. rewrite Hiso. apply Hm. lia.
  - subst n'. split; [done|]. intros j Hj. rewrite Hiso. apply Hk. lia.
Qed.

Lemma handle_extends e app w : extends w (handle e app w).2.
Proof.
  destruct e; cbn; try apply extends_refl.
  - destruct (isCreating app) eqn:Hc.
    + rewrite createNewNote_cooling by done. apply extends_refl.
    + rewrite createNewNote_idle by done. apply later_extends.
  - unfold bind, ret.
    pose proof (updateCurrentNote_extends rendered content0 (noteStore app) w).
    by destruct (updateCurrentNote rendered content0 (noteStore app) w).
Qed.

Lemma handle_stamped e app w :
  clock_monotone w → stamped w (noteStore app) →
  stamped (handle e app w).2 (noteStore (handle e app w).1).
Proof.
  intros Hm Hs. destruct e; cbn; try done.
  - destruct (isCreating app) eqn:Hc.
    + by rewrite createNewNote_cooling.
    + rewrite createNewNote_idle by done. by apply stamped_created.
  - unfold bind, ret.
    pose proof (stamped_updated rendered content0 (noteStore app) w Hm Hs).
    by destruct (updateCurrentNote rendered content0 (noteStore app) w).
  - intros n Hn. apply deleteNote_elem_of in Hn as [Hn _]. by apply Hs.
Qed.

Lemma run_stamped es app w :
  clock_monotone w → stamped w (noteStore app) →
  clock_monotone (run es app w).2 ∧
  stamped (run es app w).2 (noteStore (run es app w).1).
Proof.
  revert app w. induction es as [|e es IH]; intros app w Hm Hs; [done|].
  cbn [run]. unfold bind.
  pose proof (handle_extends e app w) as Hext.
  pose proof (handle_stamped e app w Hm Hs) as Hs'.
  destruct (handle e app w) as [app' w']. cbn in *.
  apply IH; [by apply (clock_monotone_extends w)|done].
Qed.

Lemma handle_notes e app w n' :
  clock_monotone w → stamped w (noteStore app) →
  n' ∈ notes (noteStore (handle e app w).1) →
  n' = created_note w ∨ ∃ n, n ∈ notes (noteStore app) ∧ edited n n'.
Proof.
  intros Hm Hs. destruct e; cbn.
  - destruct (isCreating app) eqn:Hc.
    + rewrite createNewNote_cooling by done. cbn. intros Hn.
      right. exists n'. split; [done|apply edited_refl].
    + rewrite createNewNote_idle by done. cbn. intros [->|Hn]%elem_of_cons; [by left|].
      right. exists n'. split; [done|apply edited_refl].
  - intros Hn. right. exists n'. split; [done|apply edited_refl].
  - unfold bind, ret.
    pose proof (updateCurrentNote_edited rendered content0 (noteStore app) w Hm Hs) as HF.
    destruct (updateCurrentNote rendered content0 (noteStore app) w) as [s' w']. cbn in *.
    intros Hn. apply list_elem_of_lookup in Hn as [i Hi].
    destruct (Forall2_lookup_r _ _ _ _ _ HF Hi) as (n & Hni & Hed).
    right. exists n. split; [|done]. apply list_elem_of_lookup. eauto.
  - intros Hn. right. exists n'. split; [done|apply edited_refl].
  - intros Hn. apply deleteNote_elem_of in Hn as [Hn _].
    right. exists n'. split; [done|apply edited_refl].
Qed.

Lemma stamped_empty w : stamped w emptyStore.
Proof. intros n Hn. by apply elem_of_nil in Hn. Qed.

(** C7, as the code has it.  Take any run of the page in a world whose
    clock never goes back, from the empty store or from any store whose
    timestamps are in order and were read from the clock by then.  Every
    note of the store reached has a time of update that is not before
    its time of creation.  An edit made next, by the handler of any
    render, leaves, place by place, the id and the time of creation of
    every note, and a time of update that is not before the previous
    one.  And after any next event, a note of the store is the note just
    created or a note of the store before, with the same id, the same
    time of creation, and a time of update that has not gone back. *)
Theorem timestamps_ordered es app0 w :
  clock_monotone w →
  stamped w (noteStore app0) →
  (∀ n, n ∈ notes (noteStore (run es app0 w).1) →
        ts_le (createdAt n) (updatedAt n)) ∧
  (∀ r c, Forall2 edited
          (notes (noteStore (run es app0 w).1))
          (notes (updateCurrentNote r c (noteStore (run es app0 w).1)
                                    (run es app0 w).2).1)) ∧
  (∀ e n', n' ∈ notes (noteStore (handle e (run es app0 w).1 (run es app0 w).2).1) →
           n' = created_note (run es app0 w).2 ∨
           ∃ n, n ∈ notes (noteStore (run es app0 w).1) ∧ edited n n').
Proof.
  intros Hm Hs0.
  destruct (run_stamped es app0 w Hm Hs0) as [Hm' Hs].
  split; [intros n Hn; by apply (Hs n Hn)|].
  split; [intros r c; by apply updateCurrentNote_edited|].
  intros e n'. by apply handle_notes.
Qed.

Lemma timestamps_ordered_witness :
  (∀ n, n ∈ notes (noteStore (run sample_run initialApp ticking_world).1) →
        ts_le (createdAt n) (updatedAt n)) ∧
  (∀ r c, Forall2 edited
          (notes (noteStore (run sample_run initialApp ticking_world).1))
          (notes (updateCurrentNote r c
                    (noteStore (run sample_run initialApp ticking_world).1)
                    (run sample_run initialApp ticking_world).2).1)) ∧
  (∀ e n', n' ∈ notes (noteStore
                         (handle e (run sample_run initialApp ticking_world).1
                                   (run sample_run initialApp ticking_world).2).1) →
           n' = created_note (run sample_run initialApp ticking_world).2 ∨
           ∃ n, n ∈ notes (noteStore (run sample_run initialApp ticking_world).1) ∧
                edited n n').
Proof.
  apply (timestamps_ordered sample_run initialApp ticking_world).
  - intros i j Hij. cbn.
    destruct (decide (i < 3)); destruct (decide (j < 3)); try reflexivity. lia.
  - apply stamped_empty.
Defined.

(** C7, as the claim has it, fails: the two times of a new note are two
    readings of the wall clock, and when the clock is set back between
    them the note is created with a time of update before its time of
    creation. *)
Lemma createNewNote_clock_set_back :
  ¬ (∀ w n, n ∈ notes (noteStore (createNewNote initialApp w).1) →
            ts_le (createdAt n) (updatedAt n)).
Proof.
  intros H. specialize (H set_back_world (created_note set_back_world)).
  assert (Hle : ts_le (createdAt (created_note set_back_world))
                      (updatedAt (created_note set_back_world))).
  { apply H. left. }
  discriminate Hle.
Qed.

(** ** The invariant of the store *)

Lemma notes_with_id_ids a l l' :
  id <$> l = id <$> l' →
  length (notes_with_id a l) = length (notes_with_id a l').
Proof.
  revert l'. induction l as [|n l IH]; intros [|n' l'] H; try done.
  cbn in H. injection H as Hid Hl. unfold notes_with_id in *.
  rewrite !filter_cons. rewrite Hid.
  destruct (decide (id n' = a)); cbn; by rewrite (IH l').
Qed.

Lemma notes_with_id_delete a i l :
  a ≠ i → notes_with_id a (filter (λ n, id n ≠ i) l) = notes_with_id a l.
Proof.
  intros Hne. unfold notes_with_id. rewrite list_filter_filter.
  apply list_filter_iff. intros n. split; [tauto|]. intros <-. done.
Qed.

Lemma notes_with_id_cons_eq n l :
  notes_with_id (id n) (n :: l) = n :: notes_with_id (id n) l.
Proof. unfold notes_with_id. by rewrite filter_cons_True. Qed.

(** ** Reading back what [JSON.stringify] wrote *)

Lemma hex_value_hex_digit d : (d < 16)%N → hex_value (hex_digit d) = Some d.
Proof.
  intros Hd.
  assert (d = 0 ∨ d = 1 ∨ d = 2 ∨ d = 3 ∨ d = 4 ∨ d = 5 ∨ d = 6 ∨ d = 7 ∨ d = 8 ∨
          d = 9 ∨ d = 10 ∨ d = 11 ∨ d = 12 ∨ d = 13 ∨ d = 14 ∨ d = 15)%N as H by lia.
  repeat (destruct H as [->|H]; [reflexivity|]). by subst d.
Qed.

Lemma unicode_escape_digits c :
  (c < 65536)%N →
  unicode_escape (hex_digit (c / 4096 mod 16)) (hex_digit (c / 256 mod 16))
                 (hex_digit (c / 16 mod 16)) (hex_digit (c mod 16)) = Some c.
Proof.
  intros Hc. unfold unicode_escape.
  rewrite !hex_value_hex_digit by (apply N.mod_upper_bound; lia).
  cbn [mbind option_bind]. f_equal.
  zify. Z.to_euclidean_division_equations. lia.
Qed.

Lemma scan_unicode_escape c body :
  (c < 65536)%N →
  scan_string (unicode_escape_of c ++ body)
  = '(str, rest) ← scan_string body; Some (c :: str, rest).
Proof.
  intros Hc. unfold unicode_escape_of. cbn [app scan_string].
  change (backslash =? dquote)%N with false.
  change (backslash =? backslash)%N with true.
  change (117 =? 117)%N with true. cbv iota.
  by rewrite unicode_escape_digits.
Qed.

(** A code unit that is written as it is. *)
Lemma scan_literal c body :
  c ≠ dquote → c ≠ backslash → (32 ≤ c)%N →
  scan_string (c :: body)
  = '(str, rest) ← scan_string body; Some (c :: str, rest).
Proof.
  intros Hq Hb Hc. cbn [scan_string].
  rewrite (proj2 (N.eqb_neq _ _) Hq), (proj2 (N.eqb_neq _ _) Hb).
  by rewrite (proj2 (N.ltb_ge _ _) Hc).
Qed.

Lemma scan_quote_char c body :
  scan_string (quote_char c ++ body)
  = '(str, rest) ← scan_string body; Some (c :: str, rest).
Proof.
  unfold quote_char.
  destruct (N.eqb_spec c 8) as [->|H8]; [reflexivity|].
  destruct (N.eqb_spec c 9) as [->|H9]; [reflexivity|].
  destruct (N.eqb_spec c 10) as [->|H10]; [reflexivity|].
  destruct (N.eqb_spec c 12) as [->|H12]; [reflexivity|].
  destruct (N.eqb_spec c 13) as [->|H13]; [reflexivity|].
  destruct (N.eqb_spec c 34) as [->|H34]; [reflexivity|].
  destruct (N.eqb_spec c 92) as [->|H92]; [reflexivity|].
  destruct ((c <? 32)%N || is_high c || is_low c) eqn:E.
  - apply scan_unicode_escape. unfold is_high, is_low in E.
    apply orb_true_iff in E as [[E|E]%orb_true_iff|E].
    + apply N.ltb_lt in E. lia.
    + apply andb_true_iff in E as [_ E]. apply N.leb_le in E. lia.
    + apply andb_true_iff in E as [_ E]. apply N.leb_le in E. lia.
  - apply orb_false_iff in E as [[E _]%orb_false_iff _]. apply N.ltb_ge in E.
    by apply scan_literal.
Qed.

Lemma is_high_literal c : is_high c = true → c ≠ dquote ∧ c ≠ backslash ∧ (32 ≤ c)%N.
Proof.
  unfold is_high, dquote, backslash. intros [H _]%andb_true_iff. apply N.leb_le in H. lia.
Qed.

Lemma is_low_literal c : is_low c = true → c ≠ dquote ∧ c ≠ backslash ∧ (32 ≤ c)%N.
Proof.
  unfold is_low, dquote, backslash. intros [H _]%andb_true_iff. apply N.leb_le in H. lia.
Qed.

Lemma scan_string_quote_chars_aux k s rest :
  length s ≤ k →
  scan_string (quote_chars s ++ dquote :: rest) = Some (s, rest).
Proof.
  revert s. induction k as [|k IH]; intros s Hk.
  { destruct s; [reflexivity|cbn in Hk; lia]. }
  destruct s as [|c r]; [reflexivity|]. cbn [length] in Hk. cbn [quote_chars].
  destruct (is_high c) eqn:Hh.
  - destruct r as [|d r'].
    + rewrite scan_quote_char. reflexivity.
    + destruct (is_low d) eqn:Hl.
      * destruct (is_high_literal c Hh) as (? & ? & ?).
        destruct (is_low_literal d Hl) as (? & ? & ?).
        rewrite <- !app_comm_cons, !scan_literal by done.
        rewrite IH by (cbn [length] in Hk; lia). reflexivity.
      * rewrite <- app_assoc, scan_quote_char, IH by lia. reflexivity.
  - rewrite <- app_assoc, scan_quote_char, IH by lia. reflexivity.
Qed.

Lemma scan_string_quote_chars s rest :
  scan_string (quote_chars s ++ dquote :: rest) = Some (s, rest).
Proof. by apply (scan_string_quote_chars_aux (length s)). Qed.

Lemma tokenize_string f s rest :
  tokenize (S f) (quote s ++ rest)
  = ts ← tokenize f rest; Some (TString s :: ts).
Proof.
  unfold quote. rewrite <- app_comm_cons, <- app_assoc. cbn [app tokenize].
  change (is_ws dquote) with false.
  change (punctuator dquote) with (@None token).
  change (dquote =? dquote)%N with true. cbv iota.
  by rewrite scan_string_quote_chars.
Qed.

Lemma tokenize_punct f c t r :
  is_ws c = false → punctuator c = Some t →
  tokenize (S f) (c :: r) = ts ← tokenize f r; Some (t :: ts).
Proof. intros Hws Hp. cbn [tokenize]. by rewrite Hws, Hp. Qed.

Lemma tokenize_null f r :
  tokenize (S f) (js "null" ++ r) = ts ← tokenize f r; Some (TNull :: ts).
Proof. reflexivity. Qed.

Lemma stringify_Note n X :
  JSON_stringify (Note_toJS n) ++ X
  = 123%N :: quote (js "id") ++ 58%N :: quote (id n) ++ 44%N ::
      quote (js "content") ++ 58%N :: quote (content n) ++ 44%N ::
      quote (js "createdAt") ++ 58%N :: quote (createdAt n) ++ 44%N ::
      quote (js "updatedAt") ++ 58%N :: quote (updatedAt n) ++ 125%N :: X.
Proof.
  cbn [JSON_stringify Note_toJS List.map join_comma fst snd].
  change (js "{") with [123%N]. change (js ":") with [58%N].
  change (js ",") with [44%N]. change (js "}") with [125%N].
  by rewrite <- ?app_assoc.
Qed.

Ltac tokenize_step :=
  first
    [ rewrite tokenize_string
    | rewrite tokenize_null
    | erewrite tokenize_punct by reflexivity ].

Lemma tokenize_Note n f X :
  tokenize (length (Note_tokens n) + f) (JSON_stringify (Note_toJS n) ++ X)
  = ts ← tokenize f X; Some (Note_tokens n ++ ts).
Proof.
  rewrite stringify_Note. cbn [length Note_tokens Nat.add].
  do 17 tokenize_step. by destruct (tokenize f X).
Qed.

Lemma tokenize_notes l f X :
  tokenize (length (notes_tokens l) + f)
           (join_comma (List.map JSON_stringify (List.map Note_toJS l)) ++ X)
  = ts ← tokenize f X; Some (notes_tokens l ++ ts).
Proof.
  induction l as [|n l IH].
  { cbn. by destruct (tokenize f X). }
  destruct l as [|n' l].
  { cbn [List.map join_comma notes_tokens]. apply tokenize_Note. }
  change (notes_tokens (n :: n' :: l))
    with (Note_tokens n ++ TComma :: notes_tokens (n' :: l)).
  change (join_comma (List.map JSON_stringify (List.map Note_toJS (n :: n' :: l))))
    with (JSON_stringify (Note_toJS n) ++ [44%N] ++
          join_comma (List.map JSON_stringify (List.map Note_toJS (n' :: l)))).
  rewrite length_app, <- Nat.add_assoc, <- app_assoc, tokenize_Note.
  cbn [length Nat.add]. rewrite <- app_assoc. cbn [app].
  tokenize_step. rewrite IH.
  destruct (tokenize f X); [|done]. cbn [mbind option_bind].
  by rewrite <- app_assoc.
Qed.

Lemma stringify_store s :
  payload s
  = 123%N :: quote (js "notes") ++ 58%N :: 91%N ::
      join_comma (List.map JSON_stringify (List.map Note_toJS (notes s))) ++
      93%N :: 44%N :: quote (js "activeNoteId") ++ 58%N ::
      JSON_stringify (activeNoteId_toJS (activeNoteId s)) ++ [125%N].
Proof.
  unfold payload. cbn [JSON_stringify toJS List.map join_comma fst snd].
  change (js "{") with [123%N]. change (js ":") with [58%N].
  change (js ",") with [44%N]. change (js "}") with [125%N].
  change (js "[") with [91%N]. change (js "]") with [93%N].
  by rewrite <- ?app_assoc.
Qed.

Lemma tokenize_store s f :
  tokenize (length (store_tokens s) + S f) (payload s) = Some (store_tokens s).
Proof.
  rewrite stringify_store. unfold store_tokens.
  rewrite !length_app. cbn [length Nat.add].
  do 4 tokenize_step.
  rewrite <- Nat.add_assoc, tokenize_notes. cbn [length Nat.add].
  do 4 tokenize_step.
  destruct (activeNoteId s) as [a|]; cbn [activeNoteId_toJS JSON_stringify activeNoteId_token].
  - do 2 tokenize_step. reflexivity.
  - do 2 tokenize_step. reflexivity.
Qed.

(** ** The fuel of the tokenizer is enough *)

Lemma scan_string_shorter_aux n s str rest :
  length s ≤ n → scan_string s = Some (str, rest) → length rest < length s.
Proof.
  revert s str rest. induction n as [|n IH]; intros [|c s] str rest Hn Hs;
    cbn in Hn; try done; try lia.
  cbn [scan_string] in Hs.
  destruct (c =? dquote)%N.
  { injection Hs as <- <-. cbn. lia. }
  destruct (c =? backslash)%N.
  - destruct s as [|e s]; [done|]. destruct (e =? 117)%N.
    + destruct s as [|h1 [|h2 [|h3 [|h4 s]]]]; try done.
      destruct (unicode_escape h1 h2 h3 h4); [|done]. cbn [mbind option_bind] in Hs.
      destruct (scan_string s) as [[str' rest']|] eqn:E; [|done].
      injection Hs as <- <-. apply IH in E; cbn in *; lia.
    + destruct (simple_escape e); [|done]. cbn [mbind option_bind] in Hs.
      destruct (scan_string s) as [[str' rest']|] eqn:E; [|done].
      injection Hs as <- <-. apply IH in E; cbn in *; lia.
  - destruct (c <? 32)%N; [done|].
    destruct (scan_string s) as [[str' rest']|] eqn:E; [|done].
    injection Hs as <- <-. apply IH in E; cbn in *; lia.
Qed.

Lemma scan_string_shorter s str rest :
  scan_string s = Some (str, rest) → length rest < length s.
Proof. by apply (scan_string_shorter_aux (length s)). Qed.

Lemma take_digits_length s : length (take_digits s).2 ≤ length s.
Proof.
  induction s as [|c s IH]; cbn; [done|].
  destruct (is_digit c); [|cbn; lia].
  destruct (take_digits s) as [ds rest]. cbn in *. lia.
Qed.

Lemma scan_int_shorter s i rest :
  scan_int s = Some (i, rest) → length rest < length s.
Proof.
  destruct s as [|c s]; [done|]. cbn [scan_int].
  destruct (c =? 48)%N; [intros [= <- <-]; cbn; lia|].
  destruct (is_digit c); [|done].
  pose proof (take_digits_length s). destruct (take_digits s) as [ds r].
  intros [= <- <-]. cbn in *. lia.
Qed.

Lemma scan_frac_length s f rest :
  scan_frac s = Some (f, rest) → length rest ≤ length s.
Proof.
  destruct s as [|c s]; [by intros [= <- <-]|]. cbn [scan_frac].
  destruct (c =? 46)%N; [|by intros [= <- <-]].
  pose proof (take_digits_length s). destruct (take_digits s) as [[|d ds] r]; [done|].
  intros [= <- <-]. cbn in *. lia.
Qed.

Lemma scan_exp_length s e rest :
  scan_exp s = Some (e, rest) → length rest ≤ length s.
Proof.
  destruct s as [|c s]; [by intros [= <- <-]|]. cbn [scan_exp].
  destruct ((c =? 101) || (c =? 69))%N; [|by intros [= <- <-]].
  assert (Hr : ∀ x r1, length r1 ≤ length s →
            match take_digits r1 with
            | ([], _) => None
            | (ds, rest0) => Some (c :: x ++ ds, rest0)
            end = Some (e, rest) → length rest ≤ length (c :: s)).
  { intros x r1 Hr1. pose proof (take_digits_length r1).
    destruct (take_digits r1) as [[|d ds] r]; [done|].
    intros [= <- <-]. cbn in *. lia. }
  destruct s as [|d s]; [by apply Hr|].
  destruct ((d =? 43) || (d =? 45))%N; apply Hr; cbn; lia.
Qed.

Lemma scan_number_shorter s l rest :
  scan_number s = Some (l, rest) → length rest < length s.
Proof.
  unfold scan_number.
  assert (Hr : ∀ x s0, length s0 ≤ length s →
            ('(i, s1) ← scan_int s0; '(f, s2) ← scan_frac s1;
             '(e, s3) ← scan_exp s2; Some (x ++ i ++ f ++ e, s3)) = Some (l, rest) →
            length rest < length s).
  { intros x s0 Hs0 H.
    destruct (scan_int s0) as [[i s1]|] eqn:Ei; [|done]. cbn [mbind option_bind] in H.
    destruct (scan_frac s1) as [[f s2]|] eqn:Ef; [|done]. cbn [mbind option_bind] in H.
    destruct (scan_exp s2) as [[e s3]|] eqn:Ee; [|done]. cbn [mbind option_bind] in H.
    injection H as <- <-.
    apply scan_int_shorter in Ei. apply scan_frac_length in Ef.
    apply scan_exp_length in Ee. lia. }
  destruct s as [|c s]; [by apply Hr|].
  destruct (c =? 45)%N; apply Hr; cbn; lia.
Qed.

Lemma strip_prefix_length p s rest :
  strip_prefix p s = Some rest → length rest + length p = length s.
Proof.
  revert s. induction p as [|a p IH]; intros [|b s]; cbn; try done.
  - intros [= <-]. cbn. lia.
  - intros [= <-]. cbn. lia.
  - destruct (a =? b)%N; [|done]. intros H%IH. lia.
Qed.

Lemma keyword_shorter s t rest :
  keyword s = Some (t, rest) → length rest < length s.
Proof.
  unfold keyword.
  destruct (strip_prefix (js "true") s) eqn:E1.
  { intros [= <- <-]. apply strip_prefix_length in E1. cbn in E1. lia. }
  destruct (strip_prefix (js "false") s) eqn:E2.
  { intros [= <- <-]. apply strip_prefix_length in E2. cbn in E2. lia. }
  destruct (strip_prefix (js "null") s) eqn:E3; [|done].
  intros [= <- <-]. apply strip_prefix_length in E3. cbn in E3. lia.
Qed.

Lemma tokenize_enough f s ts :
  tokenize f s = Some ts →
  ∀ f', length s < f' → tokenize f' s = Some ts.
Proof.
  revert s ts. induction f as [|f IH]; intros s ts Ht [|f'] Hlen; try done; [lia|].
  destruct s as [|c s]; [done|]. cbn [tokenize] in *. cbn in Hlen.
  destruct (is_ws c); [apply (IH _ _ Ht); lia|].
  destruct (punctuator c).
  { destruct (tokenize f s) as [ts'|] eqn:E; [|done].
    rewrite (IH _ _ E) by lia. done. }
  destruct (c =? dquote)%N.
  { destruct (scan_string s) as [[str rest]|] eqn:Es; [|done].
    cbn [mbind option_bind] in *.
    destruct (tokenize f rest) as [ts'|] eqn:E; [|done].
    apply scan_string_shorter in Es. rewrite (IH _ _ E) by lia. done. }
  destruct ((c =? 45)%N || is_digit c).
  { destruct (scan_number (c :: s)) as [[l rest]|] eqn:Es; [|done].
    cbn [mbind option_bind] in *.
    destruct (tokenize f rest) as [ts'|] eqn:E; [|done].
    apply scan_number_shorter in Es. cbn in Es. rewrite (IH _ _ E) by lia. done. }
  destruct (keyword (c :: s)) as [[t rest]|] eqn:Es; [|done].
  cbn [mbind option_bind] in *.
  destruct (tokenize f rest) as [ts'|] eqn:E; [|done].
  apply keyword_shorter in Es. cbn in Es. rewrite (IH _ _ E) by lia. done.
Qed.

(** ** The fuel of the parser is enough *)

Lemma parse_value_S f ts :
  parse_value (S f) ts =
  match ts with
  | TNull :: r => Some (JNull, r)
  | TTrue :: r => Some (JBool true, r)
  | TFalse :: r => Some (JBool false, r)
  | TString s :: r => Some (JString s, r)
  | TNumber l :: r => Some (JNumber l, r)
  | TLBrack :: TRBrack :: r => Some (JArray [], r)
  | TLBrack :: r => '(vs, r') ← parse_elements f r; Some (JArray vs, r')
  | TLBrace :: TRBrace :: r => Some (JObject [], r)
  | TLBrace :: r => '(ms, r') ← parse_members f r; Some (JObject (make_object ms), r')
  | _ => None
  end.
Proof. reflexivity. Qed.

Lemma parse_elements_S f ts :
  parse_elements (S f) ts =
  '(v, r) ← parse_value f ts;
  match r with
  | TComma :: r' => '(vs, r'') ← parse_elements f r'; Some (v :: vs, r'')
  | TRBrack :: r' => Some ([v], r')
  | _ => None
  end.
Proof. reflexivity. Qed.

Lemma parse_members_S f ts :
  parse_members (S f) ts =
  match ts with
  | TString k :: TColon :: r =>
      '(v, r1) ← parse_value f r;
      match r1 with
      | TComma :: r2 => '(ms, r3) ← parse_members f r2; Some ((k, v) :: ms, r3)
      | TRBrace :: r2 => Some ([(k, v)], r2)
      | _ => None
      end
  | _ => None
  end.
Proof. reflexivity. Qed.

Lemma parse_enough f :
  enough_for parse_value 1 f ∧ enough_for parse_elements 2 f ∧
  enough_for parse_members 2 f.
Proof.
  induction f as [|f (IHv & IHe & IHm)]; [by repeat split|].
  assert (Hnow : ∀ (v : JSON) r0 ts v' r,
            Some (v, r0) = Some (v', r) → length r0 < length ts →
            (∀ g, parse_value (S g) ts = Some (v, r0)) →
            length r < length ts ∧
            ∀ f', 2 * length ts + 1 ≤ f' → parse_value f' ts = Some (v', r)).
  { intros v r0 ts v' r [= <- <-] Hl Hp. split; [done|].
    intros [|g] Hg; [lia|]. apply Hp. }
  split; [|split].
  - intros ts v r H. rewrite parse_value_S in H.
    destruct ts as [|t ts]; [done|].
    destruct t; try done;
      try (eapply Hnow; [exact H|cbn; lia|done]).
    + (* an object *)
      assert (Hgen : (parse_members f ts ≫= λ '(ms, r'), Some (JObject (make_object ms), r'))
                     = Some (v, r) →
                length r < length (TLBrace :: ts) ∧
                ∀ f', 2 * length (TLBrace :: ts) + 1 ≤ f' →
                  (parse_members (pred f') ts
                     ≫= λ '(ms, r'), Some (JObject (make_object ms), r')) = Some (v, r)).
      { intros Hb. destruct (parse_members f ts) as [[ms r']|] eqn:E; [|done].
        injection Hb as <- <-. apply IHm in E as [Hl Hen].
        split; [cbn; lia|]. intros f' Hf'. rewrite Hen; [done|]. cbn in *. lia. }
      destruct ts as [|t' ts'].
      { apply Hgen in H as [Hl Hen]. split; [done|].
        intros [|g] Hg; [cbn in Hg; lia|]. rewrite parse_value_S. by apply (Hen (S g)). }
      destruct t';
        try (apply Hgen in H as [Hl Hen]; split; [done|];
             intros [|g] Hg; [cbn in Hg; lia|]; rewrite parse_value_S;
             by apply (Hen (S g))).
      eapply Hnow; [exact H|cbn; lia|done].
    + (* an array *)
      assert (Hgen : (parse_elements f ts ≫= λ '(vs, r'), Some (JArray vs, r'))
                     = Some (v, r) →
                length r < length (TLBrack :: ts) ∧
                ∀ f', 2 * length (TLBrack :: ts) + 1 ≤ f' →
                  (parse_elements (pred f') ts
                     ≫= λ '(vs, r'), Some (JArray vs, r')) = Some (v, r)).
      { intros Hb. destruct (parse_elements f ts) as [[vs r']|] eqn:E; [|done].
        injection Hb as <- <-. apply IHe in E as [Hl Hen].
        split; [cbn; lia|]. intros f' Hf'. rewrite Hen; [done|]. cbn in *. lia. }
      destruct ts as [|t' ts'].
      { apply Hgen in H as [Hl Hen]. split; [done|].
        intros [|g] Hg; [cbn in Hg; lia|]. rewrite parse_value_S. by apply (Hen (S g)). }
      destruct t';
        try (apply Hgen in H as [Hl Hen]; split; [done|];
             intros [|g] Hg; [cbn in Hg; lia|]; rewrite parse_value_S;
             by apply (Hen (S g))).
      eapply Hnow; [exact H|cbn; lia|done].
  - intros ts vs r H. rewrite parse_elements_S in H.
    destruct (parse_value f ts) as [[v r0]|] eqn:Ev; [|done].
    cbn [mbind option_bind] in H. apply IHv in Ev as [Hl Hen].
    destruct r0 as [|t r0]; [done|]. destruct t; try done.
    + injection H as <- <-. split; [cbn in *; lia|].
      intros [|g] Hg; [lia|]. rewrite parse_elements_S, Hen by lia. done.
    + destruct (parse_elements f r0) as [[vs' r']|] eqn:Ee; [|done].
      injection H as <- <-. apply IHe in Ee as [Hl' Hen'].
      split; [cbn in *; lia|].
      intros [|g] Hg; [lia|]. rewrite parse_elements_S, Hen by lia.
      cbn [mbind option_bind]. rewrite Hen' by (cbn in *; lia). done.
  - intros ts ms r H. rewrite parse_members_S in H.
    destruct ts as [|t ts]; [done|]. destruct t; try done.
    destruct ts as [|t ts]; [done|]. destruct t; try done.
    destruct (parse_value f ts) as [[v r0]|] eqn:Ev; [|done].
    cbn [mbind option_bind] in H. apply IHv in Ev as [Hl Hen].
    destruct r0 as [|t r0]; [done|]. destruct t; try done.
    + injection H as <- <-. split; [cbn in *; lia|].
      intros [|g] Hg; [lia|]. rewrite parse_members_S, Hen by (cbn in *; lia). done.
    + destruct (parse_members f r0) as [[ms' r']|] eqn:Em; [|done].
      injection H as <- <-. apply IHm in Em as [Hl' Hen'].
      split; [cbn in *; lia|].
      intros [|g] Hg; [lia|]. rewrite parse_members_S, Hen by (cbn in *; lia).
      cbn [mbind option_bind]. rewrite Hen' by (cbn in *; lia). done.
Qed.

(** [JSON_parse] refuses a text only if no fuel at all lets the
    tokenizer and the parser take it. *)
Lemma JSON_parse_any_fuel text f1 f2 ts v :
  tokenize f1 text = Some ts → parse_value f2 ts = Some (v, []) →
  JSON_parse text = Some v.
Proof.
  intros Ht Hp. unfold JSON_parse.
  rewrite (tokenize_enough _ _ _ Ht) by lia. cbn [mbind option_bind].
  destruct (parse_enough f2) as (Hv & _). destruct (Hv _ _ _ Hp) as [_ Hen].
  rewrite Hen by lia. reflexivity.
Qed.

(** ** Parsing the tokens of a store *)

Lemma parse_Note n g R :
  6 ≤ g → parse_value g (Note_tokens n ++ R) = Some (Note_toJS n, R).
Proof.
  intros Hg. do 6 (destruct g as [|g]; [lia|]). reflexivity.
Qed.

Lemma parse_notes n l f R :
  parse_elements (length l + 7 + f) (notes_tokens (n :: l) ++ TRBrack :: R)
  = Some (List.map Note_toJS (n :: l), R).
Proof.
  revert n. induction l as [|n' l IH]; intros n.
  - cbn [length Nat.add notes_tokens]. rewrite parse_elements_S, parse_Note by lia.
    reflexivity.
  - change (notes_tokens (n :: n' :: l))
      with (Note_tokens n ++ TComma :: notes_tokens (n' :: l)).
    rewrite <- app_assoc. cbn [length Nat.add].
    rewrite parse_elements_S, parse_Note by lia.
    cbn [mbind option_bind]. rewrite <- app_comm_cons, IH. reflexivity.
Qed.

Lemma parse_array n l f R :
  parse_value (S (length l + 7 + f)) (TLBrack :: notes_tokens (n :: l) ++ TRBrack :: R)
  = Some (JArray (List.map Note_toJS (n :: l)), R).
Proof.
  assert (∃ ts', notes_tokens (n :: l) = TLBrace :: ts') as [ts' Ht].
  { destruct l; cbn; eauto. }
  pose proof (parse_notes n l f R) as Hp. rewrite Ht in *. cbn [app] in *.
  rewrite parse_value_S. cbv iota. by rewrite Hp.
Qed.

Lemma parse_store s :
  parse_value (length (notes s) + 10) (store_tokens s) = Some (toJS s, []).
Proof.
  destruct s as [l a]. unfold store_tokens, toJS. cbn [notes activeNoteId app].
  replace (length l + 10) with (S (S (S (length l + 7 + 0)))) by lia.
  rewrite parse_value_S, parse_members_S.
  destruct l as [|n l].
  - cbn [notes_tokens app length Nat.add]. rewrite parse_value_S.
    cbn [mbind option_bind]. rewrite parse_members_S.
    destruct a; reflexivity.
  - replace (S (length (n :: l) + 7 + 0)) with (S (S (length l + 7 + 0))) by (cbn; lia).
    cbv iota.
    assert (parse_value (S (S (length l + 7 + 0)))
              (TLBrack :: notes_tokens (n :: l) ++
               [TRBrack; TComma; TString (js "activeNoteId"); TColon;
                activeNoteId_token a; TRBrace])
            = Some (JArray (List.map Note_toJS (n :: l)),
                    [TComma; TString (js "activeNoteId"); TColon; activeNoteId_token a;
                     TRBrace]))
      as ->.
    { pose proof (parse_array n l 1
        [TComma; TString (js "activeNoteId"); TColon; activeNoteId_token a; TRBrace]) as Hp.
      replace (S (length l + 7 + 1)) with (S (S (length l + 7 + 0))) in Hp by lia.
      exact Hp. }
    cbn [mbind option_bind]. rewrite parse_members_S.
    destruct a; reflexivity.
Qed.

Lemma JSON_parse_payload s : JSON_parse (payload s) = Some (toJS s).
Proof. exact (JSON_parse_any_fuel _ _ _ _ _ (tokenize_store s 0) (parse_store s)). Qed.

Lemma mapM_Note_ofJS l : mapM Note_ofJS (List.map Note_toJS l) = Some l.
Proof.
  induction l as [|n l IH]; [done|].
  cbn [List.map mapM]. rewrite IH. by destruct n.
Qed.

Lemma ofJS_toJS s : ofJS (toJS s) = Some s.
Proof.
  destruct s as [l a]. unfold ofJS, toJS. cbn [get assoc notes activeNoteId].
  rewrite decide_True by done. rewrite mapM_Note_ofJS. cbn [mbind option_bind].
  rewrite decide_False by done. rewrite decide_True by done.
  by destruct a.
Qed.

Lemma payload_not_empty s : ∃ c r, payload s = c :: r.
Proof. rewrite stringify_store. eauto. Qed.

Lemma loadNotes_payload s : loadNotes (Some (payload s)) = toJS s.
Proof.
  unfold loadNotes. destruct (payload_not_empty s) as (c & r & E).
  pose proof (JSON_parse_payload s) as Hp. rewrite E in *. by rewrite Hp.
Qed.

(** ** Persistence round trip *)

Lemma saveNotes_unfold d st :
  saveNotes d st
  = match setItem STORAGE_KEY (payload d) st with
    | Some st' => st'
    | None => st
    end.
Proof.
  unfold saveNotes, save, localStorage_setItem. cbn [held].
  by destruct (setItem STORAGE_KEY (payload d) st).
Qed.

Lemma hydrate_saveNotes s st :
  length (payload s) ≤ quota st → hydrate (saveNotes s st) = toJS s.
Proof.
  intros Hq. rewrite saveNotes_unfold. unfold hydrate, setItem, getItem.
  rewrite decide_True by done. cbn [items].
  rewrite lookup_insert_eq. apply loadNotes_payload.
Qed.

Lemma row_renders_Note n : row_renders (Note_toJS n) = true.
Proof.
  unfold row_renders, Note_toJS. cbn [get assoc].
  rewrite decide_False by done. rewrite decide_True by done.
  by destruct (JSON_truthy (JString (content n))).
Qed.

(** The value of a store is rendered. *)
Lemma Home_renders_toJS s : Home_renders (toJS s) = true.
Proof.
  unfold Home_renders, toJS. cbn [assoc]. rewrite decide_True by done.
  apply forallb_forall. intros v Hv. apply in_map_iff in Hv as (n & <- & _).
  apply row_renders_Note.
Qed.

Lemma startup_payload s : startup (Some (payload s)) = Some (toJS s).
Proof. unfold startup. by rewrite loadNotes_payload, Home_renders_toJS. Qed.

(** C9.  The text that the save writes for a store, whatever the code
    units of its strings, is read back by [JSON.parse] as the value of
    that store, so hydration from it gives the store again, and the page
    renders it; and through a storage that takes the write, hydration
    after the save gives the store that was saved. *)
Theorem snapshot_round_trip s :
  JSON_parse (payload s) = Some (toJS s) ∧
  ofJS (loadNotes (Some (payload s))) = Some s ∧
  startup (Some (payload s)) = Some (toJS s) ∧
  (∀ st, length (payload s) ≤ quota st →
         ofJS (hydrate (saveNotes s st)) = Some s).
Proof.
  split; [apply JSON_parse_payload|]. split; [|split].
  - rewrite loadNotes_payload. apply ofJS_toJS.
  - apply startup_payload.
  - intros st Hq. rewrite hydrate_saveNotes by done. apply ofJS_toJS.
Qed.

Lemma snapshot_round_trip_witness :
  ofJS (hydrate (saveNotes unicode_store sample_storage)) = Some unicode_store.
Proof.
  apply (snapshot_round_trip unicode_store). apply Nat.leb_le. vm_compute. reflexivity.
Defined.

(** ** Hydration *)

Lemma loadNotes_parsed text v : JSON_parse text = Some v → loadNotes (Some text) = v.
Proof.
  intros Hp. unfold loadNotes. destruct text as [|c r]; [discriminate Hp|].
  by rewrite Hp.
Qed.

Lemma loadNotes_malformed text :
  JSON_parse text = None → loadNotes (Some text) = toJS emptyStore.
Proof.
  intros Hp. unfold loadNotes. destruct text as [|c r]; [done|]. by rewrite Hp.
Qed.

Lemma startup_malformed text :
  JSON_parse text = None → startup (Some text) = Some (toJS emptyStore).
Proof. intros Hp. unfold startup. by rewrite loadNotes_malformed. Qed.

(** C3, as the code has it.  With no stored text, an empty one, or one
    that [JSON.parse] refuses, the state stays the empty store, the page
    is rendered, and a click on the button then creates a note; with
    the text saved for a store the state becomes that store.  With any
    text that [JSON.parse] takes the state becomes the value parsed,
    whatever its shape: the text of the empty object is valid JSON and
    has not the shape of a store, it becomes the state, and the render
    that follows throws, which takes the page down. *)
Theorem hydration_of_non_store_crashes :
  startup None = Some (toJS emptyStore) ∧
  startup (Some []) = Some (toJS emptyStore) ∧
  (∀ text, JSON_parse text = None → startup (Some text) = Some (toJS emptyStore)) ∧
  (∀ w, notes (noteStore (createNewNote (mkApp emptyStore false) w).1)
        = [created_note w]) ∧
  (∀ s, startup (Some (payload s)) = Some (toJS s)) ∧
  (∀ text v, JSON_parse text = Some v → loadNotes (Some text) = v) ∧
  JSON_parse (js "{}") = Some (JObject []) ∧
  ofJS (JObject []) = None ∧
  loadNotes (Some (js "{}")) = JObject [] ∧
  Home_renders (JObject []) = false ∧
  startup (Some (js "{}")) = None.
Proof.
  split; [reflexivity|]. split; [reflexivity|].
  split; [apply startup_malformed|].
  split; [intros w; by rewrite createNewNote_idle|].
  split; [apply startup_payload|]. split; [apply loadNotes_parsed|].
  repeat split.
Qed.

(** ** Hydration and the invariant of the store *)

(** C1, as the code has it.  Hydration installs what it parsed without
    a check: the lookup of the active note is made and its result
    dropped.  From the text saved for a store it gives that store, and
    so keeps the invariant of a store that has it.  From a snapshot that
    has the shape of a store and whose active id is the id of no note,
    it gives, and the page renders, a store that has not the
    invariant. *)
Theorem hydration_installs_dangling_active_id :
  (∀ s, ofJS (loadNotes (Some (payload s))) = Some s) ∧
  JSON_parse dangling_snapshot = Some (toJS (mkStore [] (Some (js "x")))) ∧
  startup (Some dangling_snapshot) = Some (toJS (mkStore [] (Some (js "x")))) ∧
  ofJS (loadNotes (Some dangling_snapshot)) = Some (mkStore [] (Some (js "x"))) ∧
  find_note (js "x") (notes (mkStore [] (Some (js "x")))) = None ∧
  ¬ store_inv (mkStore [] (Some (js "x"))).
Proof.
  split; [intros s; rewrite loadNotes_payload; apply ofJS_toJS|].
  split; [reflexivity|]. split; [reflexivity|]. split; [reflexivity|].
  split; [reflexivity|].
  intros H. specialize (H (js "x") eq_refl). discriminate H.
Qed.

(** ** The debounced save *)

Lemma save_calls d b :
  setItem_calls (save d b) = setItem_calls b ++ [(STORAGE_KEY, payload d)].
Proof.
  unfold save, localStorage_setItem.
  by destruct (setItem STORAGE_KEY (payload d) (held b)).
Qed.

Lemma save_held d b : held (save d b) = saveNotes d (held b).
Proof.
  rewrite saveNotes_unfold. unfold save, localStorage_setItem.
  by destruct (setItem STORAGE_KEY (payload d) (held b)).
Qed.

Lemma saveNotes_quota d st : quota (saveNotes d st) = quota st.
Proof.
  rewrite saveNotes_unfold. unfold setItem.
  by destruct (decide (length (payload d) ≤ quota st)).
Qed.

Lemma saveNotes_getItem d st :
  length (payload d) ≤ quota st →
  getItem STORAGE_KEY (saveNotes d st) = Some (payload d).
Proof.
  intros Hq. rewrite saveNotes_unfold. unfold setItem, getItem.
  rewrite decide_True by done. cbn [items]. by rewrite lookup_insert_eq.
Qed.

Lemma persist_inv_length p : persist_inv p → length (timers p) ≤ 1.
Proof. intros [->|(t & -> & _)]; cbn; lia. Qed.

Lemma elapse_idle now p : timers p = [] → elapse now p = p.
Proof. intros H. unfold elapse. by rewrite H. Qed.

Lemma elapse_not_due now t p :
  timers p = [t] → (now < due t)%Z → elapse now p = p.
Proof.
  intros H Hd. unfold elapse. rewrite H, filter_cons_False by lia. done.
Qed.

Lemma elapse_due now t p :
  timers p = [t] → (due t ≤ now)%Z →
  elapse now p
  = mkPersist [] (next_timer p) (timeout p) (save (timer_args t) (backend p)).
Proof.
  intros H Hd. unfold elapse. rewrite H, filter_cons_True by done.
  cbn [filter list_filter foldl]. unfold fire. rewrite H.
  by rewrite filter_cons_False by (intros Hne; by apply Hne).
Qed.

Lemma elapse_inv now p : persist_inv p → persist_inv (elapse now p).
Proof.
  intros [He|(t & Ht & Hto & Hlt)].
  - rewrite elapse_idle by done. by left.
  - destruct (decide (due t ≤ now)%Z).
    + rewrite (elapse_due now t) by done. by left.
    + rewrite (elapse_not_due now t) by (done || lia). right. eauto.
Qed.

Lemma debouncedSave_timers now data p :
  persist_inv p →
  timers (debouncedSave now data p)
  = [mkTimer (next_timer p) (now + wait_save) data].
Proof.
  intros [He|(t & Ht & Hto & Hlt)]; unfold debouncedSave, debounce; cbn [timers].
  - rewrite He. by destruct (timeout p).
  - rewrite Ht, Hto. cbn [clearTimeout].
    by rewrite filter_cons_False by (intros Hne; by apply Hne).
Qed.

Lemma debouncedSave_inv now data p :
  persist_inv p → persist_inv (debouncedSave now data p).
Proof.
  intros Hinv. right. eexists. split; [by apply debouncedSave_timers|].
  cbn. split; [done|lia].
Qed.

Lemma storeChanged_inv now data p :
  persist_inv p → persist_inv (storeChanged now data p).
Proof. intros Hinv. by apply debouncedSave_inv, elapse_inv. Qed.

Lemma storeChanges_inv l p : persist_inv p → persist_inv (storeChanges l p).
Proof.
  revert p. induction l as [|[now data] l IH]; intros p Hinv; [done|].
  cbn [storeChanges]. by apply IH, storeChanged_inv.
Qed.

(** A change that comes before the pending save is due replaces it. *)
Lemma storeChanged_pending now data prev d p :
  persist_inv p →
  timers p = [mkTimer (pred (next_timer p)) (prev + wait_save) d] →
  (now < prev + wait_save)%Z →
  timers (storeChanged now data p)
  = [mkTimer (pred (next_timer (storeChanged now data p))) (now + wait_save) data] ∧
  backend (storeChanged now data p) = backend p.
Proof.
  intros Hinv Ht Hlt. unfold storeChanged.
  rewrite (elapse_not_due now _ p Ht) by done.
  rewrite debouncedSave_timers by done. done.
Qed.

Lemma burst_pending l prev d p :
  persist_inv p →
  timers p = [mkTimer (pred (next_timer p)) (prev + wait_save) d] →
  rapid prev l →
  timers (storeChanges l p)
  = [mkTimer (pred (next_timer (storeChanges l p)))
             ((default (prev, d) (last l)).1 + wait_save)
             (default (prev, d) (last l)).2] ∧
  backend (storeChanges l p) = backend p.
Proof.
  revert prev d p. induction l as [|[now data] l IH]; intros prev d p Hinv Ht Hr.
  { done. }
  cbn [rapid] in Hr. destruct Hr as [Hnow Hr].
  destruct (storeChanged_pending now data prev d p Hinv Ht) as (Ht' & Hb'); [lia|].
  cbn [storeChanges].
  destruct (IH now data (storeChanged now data p)) as (Ht'' & Hb'');
    [by apply storeChanged_inv|done|done|].
  rewrite Hb'', Hb'. split; [|done].
  rewrite Ht''. destruct l as [|x l]; [done|].
  rewrite last_cons_cons. destruct (last (x :: l)) eqn:E; [done|].
  by apply last_None in E.
Qed.

Lemma elapse_none_due now p :
  persist_inv p → (∀ t, t ∈ timers p → (now < due t)%Z) → elapse now p = p.
Proof.
  intros [He|(t & Ht & _)] Hd; [by apply elapse_idle|].
  apply (elapse_not_due now t); [done|]. apply Hd. rewrite Ht. left.
Qed.

Lemma rapid_app_l prev l1 l2 : rapid prev (l1 ++ l2) → rapid prev l1.
Proof.
  revert prev. induction l1 as [|[now data] l1 IH]; intros prev; [done|].
  cbn [app rapid]. intros [Hnow Hr]. split; [done|]. by apply IH.
Qed.

(** The first change of a burst, made when no pending save is due yet,
    leaves its snapshot as the one save pending. *)
Lemma burst_started t1 d1 p :
  persist_inv p → (∀ t, t ∈ timers p → (t1 < due t)%Z) →
  persist_inv (storeChanged t1 d1 p) ∧
  timers (storeChanged t1 d1 p)
  = [mkTimer (pred (next_timer (storeChanged t1 d1 p))) (t1 + wait_save) d1] ∧
  backend (storeChanged t1 d1 p) = backend p.
Proof.
  intros Hinv Hnd. split; [by apply storeChanged_inv|].
  assert (Hp1 : storeChanged t1 d1 p = debouncedSave t1 d1 p).
  { unfold storeChanged. by rewrite elapse_none_due. }
  rewrite Hp1. by rewrite debouncedSave_timers.
Qed.

(** C8.  From any state of the page that [debouncedSave] has led to,
    and after any changes of the store, at any times, at most one save
    is pending, before and after the event loop has run to any time.
    And take a burst of changes, each less than the wait after the one
    before, that starts when no pending save is due yet.  While it
    lasts, and until the wait has passed after the last change,
    [localStorage] receives no call and holds what it held.  Once the
    wait has passed, it has received exactly one call of [setItem] more,
    under the key of the page and with the text of the store of the last
    change; when the storage takes a text of that length, that text is
    what it holds under the key, and hydration from it gives the store
    of the last change; and no save is pending. *)
Theorem debounce_coalesces p :
  persist_inv p →
  (∀ l T, length (timers (storeChanges l p)) ≤ 1 ∧
          length (timers (elapse T (storeChanges l p))) ≤ 1) ∧
  (∀ t1 d1 l T,
     (∀ t, t ∈ timers p → (t1 < due t)%Z) →
     rapid t1 l →
     ((default (t1, d1) (last l)).1 + wait_save ≤ T)%Z →
     (∀ l1 l2, l = l1 ++ l2 → backend (storeChanges ((t1, d1) :: l1) p) = backend p) ∧
     (∀ T', (T' < (default (t1, d1) (last l)).1 + wait_save)%Z →
            backend (elapse T' (storeChanges ((t1, d1) :: l) p)) = backend p) ∧
     setItem_calls (backend (elapse T (storeChanges ((t1, d1) :: l) p)))
     = setItem_calls (backend p)
       ++ [(STORAGE_KEY, payload (default (t1, d1) (last l)).2)] ∧
     storage (elapse T (storeChanges ((t1, d1) :: l) p))
     = saveNotes (default (t1, d1) (last l)).2 (storage p) ∧
     (length (payload (default (t1, d1) (last l)).2) ≤ quota (storage p) →
        getItem STORAGE_KEY (storage (elapse T (storeChanges ((t1, d1) :: l) p)))
        = Some (payload (default (t1, d1) (last l)).2) ∧
        ofJS (hydrate (storage (elapse T (storeChanges ((t1, d1) :: l) p))))
        = Some (default (t1, d1) (last l)).2) ∧
     timers (elapse T (storeChanges ((t1, d1) :: l) p)) = []).
Proof.
  intros Hinv0. split.
  - intros l T. split; apply persist_inv_length.
    + by apply storeChanges_inv.
    + by apply elapse_inv, storeChanges_inv.
  - intros t1 d1 l T Hnd Hr HT. cbn [storeChanges].
    destruct (burst_started t1 d1 p Hinv0 Hnd) as (Hinv1 & Ht1 & Hb1).
    set (p1 := storeChanged t1 d1 p) in *.
    destruct (burst_pending l t1 d1 p1 Hinv1 Ht1 Hr) as (Ht & Hb).
    split; [|split].
    { intros l1 l2 ->. apply rapid_app_l in Hr.
      destruct (burst_pending l1 t1 d1 p1 Hinv1 Ht1 Hr) as (_ & Hb').
      by rewrite Hb'. }
    { intros T' HT'. rewrite (elapse_not_due T' _ _ Ht) by done. by rewrite Hb. }
    rewrite (elapse_due T _ _ Ht) by done. unfold storage.
    cbn [backend timers timer_args].
    rewrite Hb, Hb1, save_calls, save_held.
    split; [done|]. split; [done|]. split; [|done].
    intros Hq. split; [by apply saveNotes_getItem|].
    rewrite hydrate_saveNotes by done. apply ofJS_toJS.
Qed.

Lemma debounce_coalesces_witness :
  backend (storeChanges sample_burst (initialPersist sample_storage))
  = mkBackend sample_storage [] ∧
  setItem_calls (backend (elapse 600 (storeChanges sample_burst
                                        (initialPersist sample_storage))))
  = [(STORAGE_KEY, payload sample_store)] ∧
  getItem STORAGE_KEY
    (storage (elapse 600 (storeChanges sample_burst (initialPersist sample_storage))))
  = Some (payload sample_store) ∧
  ofJS (hydrate (storage (elapse 600 (storeChanges sample_burst
                                        (initialPersist sample_storage)))))
  = Some sample_store ∧
  timers (elapse 600 (storeChanges sample_burst (initialPersist sample_storage))) = [].
Proof.
  destruct (debounce_coalesces (initialPersist sample_storage)) as [_ H].
  - left. reflexivity.
  - destruct (H 0%Z emptyStore [(100%Z, sample_store)] 600%Z)
      as (Hduring & _ & Hcalls & _ & Hheld & Hnone).
    + intros t Ht. by apply elem_of_nil in Ht.
    + cbn. unfold wait_save. split; [lia|exact I].
    + cbn. unfold wait_save. lia.
    + split; [apply (Hduring [(100%Z, sample_store)] []); reflexivity|].
      split; [exact Hcalls|].
      assert (Hq : length (payload sample_store) ≤ quota sample_storage).
      { apply Nat.leb_le. vm_compute. reflexivity. }
      destruct (Hheld Hq) as [Hg Hh]. split; [exact Hg|]. split; [exact Hh|exact Hnone].
Defined.

(** * The rest of the page: theorems *)

(** ** What the editor is given *)

Lemma find_note_map_update a c l w :
  find_note a (map_update (Some a) c l w).1
  = (λ n, mkNote (id n) c (createdAt n) (isoAt w (calls w))) <$> find_note a l.
Proof.
  revert w. induction l as [|n l IH]; intros w; [reflexivity|].
  cbn [map_update]. unfold bind, ret, new_Date_toISOString.
  destruct (decide (Some (id n) = Some a)) as [Heq|Hne].
  - destruct (map_update (Some a) c l (tick w)) as [l' w']. cbn [fst].
    unfold find_note. cbn [find id].
    assert (Hid : id n = a) by congruence.
    by rewrite !bool_decide_eq_true_2.
  - specialize (IH w). destruct (map_update (Some a) c l w) as [l' w']. cbn [fst] in *.
    unfold find_note in *. cbn [find].
    rewrite bool_decide_eq_false_2 by congruence. exact IH.
Qed.

Lemma activeNote_updateCurrentNote r c s w :
  truthy r = true →
  activeNote (updateCurrentNote r c s w).1
  = (λ n, mkNote (id n) c (createdAt n) (isoAt w (calls w))) <$> activeNote s.
Proof.
  intros Ht. rewrite updateCurrentNote_unfold by done.
  unfold activeNote. cbn [fst activeNoteId notes].
  destruct (activeNoteId s) as [a|]; [|done]. apply find_note_map_update.
Qed.

(** X1.  An edit is read back when the handler was made by a render
    that had an active id: take a store that has an active note; after
    [updateCurrentNote c] by a handler whose render had a non-empty
    active id, the active note is that note with the content [c] and,
    for time of update, the reading of the clock at the call, and the
    editor is given [c]; after [updateCurrentNote c] by a handler whose
    render had a null or empty active id, the active note and what the
    editor is given are as they were. *)
Theorem edit_then_read r c s w n :
  activeNote s = Some n →
  (truthy r = true →
     activeNote (updateCurrentNote r c s w).1
     = Some (mkNote (id n) c (createdAt n) (isoAt w (calls w))) ∧
     noteContent (updateCurrentNote r c s w).1 = c) ∧
  (truthy r = false →
     activeNote (updateCurrentNote r c s w).1 = Some n ∧
     noteContent (updateCurrentNote r c s w).1 = content n).
Proof.
  intros Hn. split; intros Ht.
  - pose proof (activeNote_updateCurrentNote r c s w Ht) as H. rewrite Hn in H.
    split; [done|]. unfold noteContent. by rewrite H.
  - rewrite updateCurrentNote_falsy by done. cbn [fst].
    split; [done|]. unfold noteContent. by rewrite Hn.
Qed.

Lemma edit_then_read_witness :
  (activeNote (updateCurrentNote (activeNoteId two_notes) (js "Bye") two_notes
                                 ticking_world).1
   = Some (mkNote (id sample_note) (js "Bye") (createdAt sample_note)
                  (isoAt ticking_world 0)) ∧
   noteContent (updateCurrentNote (activeNoteId two_notes) (js "Bye") two_notes
                                  ticking_world).1 = js "Bye") ∧
  (activeNote (updateCurrentNote None (js "Bye") two_notes ticking_world).1
   = Some sample_note ∧
   noteContent (updateCurrentNote None (js "Bye") two_notes ticking_world).1
   = content sample_note).
Proof.
  destruct (edit_then_read (activeNoteId two_notes) (js "Bye") two_notes ticking_world
              sample_note eq_refl) as [Ht _].
  destruct (edit_then_read None (js "Bye") two_notes ticking_world sample_note eq_refl)
    as [_ Hf].
  split; [apply Ht; reflexivity|apply Hf; reflexivity].
Defined.

Lemma find_note_filter a i l :
  a ≠ i → find_note a (filter (λ n, id n ≠ i) l) = find_note a l.
Proof.
  intros Hne. unfold find_note. induction l as [|n l IH]; [reflexivity|].
  rewrite filter_cons. destruct (decide (id n ≠ i)) as [Hk|Hd]; cbn [find].
  - by rewrite IH.
  - rewrite bool_decide_eq_false_2; [done|]. intros Heq. apply Hd. congruence.
Qed.

(** X2.  What the editor is given after a delete: deleting the active
    note leaves no active note and the empty content; deleting any other
    id leaves the active note, and so the content, as they were. *)
Theorem delete_then_read i s :
  (activeNoteId s = Some i →
     activeNote (deleteNote i s) = None ∧ noteContent (deleteNote i s) = []) ∧
  (activeNoteId s ≠ Some i →
     activeNote (deleteNote i s) = activeNote s ∧
     noteContent (deleteNote i s) = noteContent s).
Proof.
  split.
  - intros Ha. unfold noteContent, activeNote, deleteNote. cbn [activeNoteId notes].
    by rewrite decide_True.
  - intros Ha.
    assert (H : activeNote (deleteNote i s) = activeNote s).
    { unfold activeNote, deleteNote. cbn [activeNoteId notes].
      rewrite decide_False by done.
      destruct (activeNoteId s) as [a|]; [|done].
      apply find_note_filter. congruence. }
    split; [done|]. unfold noteContent. by rewrite H.
Qed.

Lemma delete_then_read_witness :
  (activeNote (deleteNote (id sample_note) two_notes) = None ∧
   noteContent (deleteNote (id sample_note) two_notes) = []) ∧
  (activeNote (deleteNote (id other_note) two_notes) = activeNote two_notes ∧
   noteContent (deleteNote (id other_note) two_notes) = noteContent two_notes).
Proof.
  split.
  - apply (delete_then_read (id sample_note) two_notes). reflexivity.
  - apply (delete_then_read (id other_note) two_notes). discriminate.
Defined.

Lemma created_id_not_empty w :
  now36At w (calls w) ≠ [] → id (created_note w) ≠ [].
Proof. intros Hne. cbn. by destruct (now36At w (calls w)). Qed.

(** X3.  A note just created can be edited: outside the cool-down, and
    when [Date.now().toString(36)] is not empty, after a click the new
    note is the active note and the editor is given the empty content;
    after an edit [c] by the handler of the render that follows the
    click, the editor is given [c]. *)
Theorem create_then_edit app w c :
  isCreating app = false → now36At w (calls w) ≠ [] →
  activeNote (noteStore (createNewNote app w).1) = Some (created_note w) ∧
  noteContent (noteStore (createNewNote app w).1) = [] ∧
  noteContent (updateCurrentNote (activeNoteId (noteStore (createNewNote app w).1)) c
                                 (noteStore (createNewNote app w).1)
                                 (createNewNote app w).2).1 = c.
Proof.
  intros Hc Hne. rewrite createNewNote_idle by done. cbn [fst snd noteStore].
  set (s' := mkStore (created_note w :: notes (noteStore app))
                     (Some (id (created_note w)))).
  assert (Ha : activeNote s' = Some (created_note w)).
  { unfold activeNote, find_note, s'. cbn [activeNoteId notes find].
    by rewrite bool_decide_eq_true_2. }
  split; [done|]. split; [unfold noteContent; by rewrite Ha|].
  unfold noteContent. rewrite activeNote_updateCurrentNote, Ha; [done|].
  apply truthy_Some. by apply created_id_not_empty.
Qed.

Lemma create_then_edit_witness :
  activeNote (noteStore (createNewNote initialApp ticking_world).1)
  = Some (created_note ticking_world) ∧
  noteContent (noteStore (createNewNote initialApp ticking_world).1) = [] ∧
  noteContent (updateCurrentNote
                 (activeNoteId (noteStore (createNewNote initialApp ticking_world).1))
                 (js "Hello")
                 (noteStore (createNewNote initialApp ticking_world).1)
                 (createNewNote initialApp ticking_world).2).1 = js "Hello".
Proof.
  apply (create_then_edit initialApp ticking_world (js "Hello")); [reflexivity|discriminate].
Defined.

(** ** The titles of the list *)

Lemma first_line_no_newline s : has_newline (first_line s) = false.
Proof.
  induction s as [|c s IH]; [reflexivity|]. cbn [first_line].
  destruct (c =? newline)%N eqn:E; [reflexivity|]. cbn [has_newline].
  by rewrite E, IH.
Qed.

Lemma first_line_whole s : has_newline s = false → first_line s = s.
Proof.
  induction s as [|c s IH]; [reflexivity|]. cbn [has_newline first_line].
  destruct (c =? newline)%N; [done|]. cbn [orb]. intros H. by rewrite IH.
Qed.

Lemma first_line_app l r :
  has_newline l = false → first_line (l ++ newline :: r) = l.
Proof.
  induction l as [|c l IH].
  { intros _. cbn [app first_line]. by rewrite N.eqb_refl. }
  cbn [has_newline]. rewrite <- app_comm_cons. cbn [first_line].
  destruct (c =? newline)%N; [done|]. cbn [orb]. intros H. by rewrite IH.
Qed.

(** X4.  The title of a note in the list is never empty and never has a
    line feed (U+000A, the character the content is split at).  It is
    the content when the content is not empty and has no line feed, and
    what comes before the first line feed of the content when that is
    not empty. *)
Theorem noteTitle_spec n :
  noteTitle n ≠ [] ∧
  has_newline (noteTitle n) = false ∧
  (content n ≠ [] → has_newline (content n) = false → noteTitle n = content n) ∧
  (∀ l r, l ≠ [] → has_newline l = false →
          content n = l ++ newline :: r → noteTitle n = l).
Proof.
  unfold noteTitle. split; [|split; [|split]].
  - destruct (content n); [done|]. by destruct (first_line _).
  - destruct (content n) as [|c r] eqn:E; [reflexivity|].
    pose proof (first_line_no_newline (c :: r)) as H.
    by destruct (first_line (c :: r)).
  - intros Hne Hnl. destruct (content n) as [|c r] eqn:E; [done|].
    rewrite (first_line_whole _ Hnl). done.
  - intros l r Hne Hnl ->. destruct l as [|c l]; [done|].
    rewrite <- app_comm_cons, app_comm_cons.
    rewrite (first_line_app (c :: l) r Hnl). done.
Qed.

Lemma noteTitle_spec_witness :
  noteTitle sample_note = js "Hello" ∧
  noteTitle (mkNote (js "a") (js "Title" ++ newline :: js "body") (js "t") (js "t"))
  = js "Title".
Proof.
  split.
  - apply (noteTitle_spec sample_note); [discriminate|reflexivity].
  - destruct (noteTitle_spec
                (mkNote (js "a") (js "Title" ++ newline :: js "body") (js "t") (js "t")))
      as (_ & _ & _ & H).
    apply (H (js "Title") (js "body")); [discriminate|reflexivity|reflexivity].
Defined.

(** ** The cool-down of the button *)

Lemma run_clicks_cooling k app w :
  isCreating app = true → run (replicate k NewNoteClicked) app w = (app, w).
Proof.
  intros Hc. induction k as [|k IH]; [reflexivity|].
  cbn [replicate run handle]. unfold bind. by rewrite createNewNote_cooling.
Qed.

(** X5.  Clicks on the button that come before the cool-down has elapsed
    are absorbed: outside the cool-down, any number of clicks in a row
    does what the first one does, and creates one note. *)
Theorem repeated_clicks_absorbed k app w :
  isCreating app = false →
  run (replicate (S k) NewNoteClicked) app w = createNewNote app w ∧
  notes (noteStore (run (replicate (S k) NewNoteClicked) app w).1)
  = created_note w :: notes (noteStore app).
Proof.
  intros Hc.
  assert (H : run (replicate (S k) NewNoteClicked) app w = createNewNote app w).
  { cbn [replicate run handle]. unfold bind. rewrite createNewNote_idle by done.
    by rewrite run_clicks_cooling. }
  split; [done|]. rewrite H. by rewrite createNewNote_idle.
Qed.

Lemma repeated_clicks_absorbed_witness :
  run (replicate 3 NewNoteClicked) initialApp ticking_world
  = createNewNote initialApp ticking_world ∧
  notes (noteStore (run (replicate 3 NewNoteClicked) initialApp ticking_world).1)
  = [created_note ticking_world].
Proof. apply (repeated_clicks_absorbed 2 initialApp ticking_world). reflexivity. Defined.

(** ** The ids that [generateId] gives *)

Lemma digit_value36_digit36 d : (d < 36)%N → digit_value36 (digit36 d) = d.
Proof.
  intros Hd. unfold digit_value36, digit36.
  destruct (d <? 10)%N eqn:E.
  - apply N.ltb_lt in E. rewrite (proj2 (N.ltb_lt _ _)) by lia. lia.
  - apply N.ltb_ge in E. rewrite (proj2 (N.ltb_ge _ _)) by lia. lia.
Qed.

Lemma value36_app a s t : value36 a (s ++ t) = value36 (value36 a s) t.
Proof.
  revert a. induction s as [|c s IH]; intros a; [done|].
  cbn [app value36]. apply IH.
Qed.

Lemma toString36_from_spec f n acc :
  (n < 36 ^ N.of_nat (S f))%N →
  ∃ ds k,
    toString36_from (S f) n acc = ds ++ acc ∧
    value36 0 ds = n ∧
    length ds = S k ∧
    (n < 36 ^ N.of_nat (S k))%N ∧
    (n ≠ 0%N → (36 ^ N.of_nat k ≤ n)%N).
Proof.
  revert n acc. induction f as [|f IH]; intros n acc Hn.
  - assert (Hq : (n / 36 = 0)%N).
    { apply N.div_small. change (36 ^ N.of_nat 1)%N with 36%N in Hn. lia. }
    exists [digit36 (n mod 36)], 0.
    cbn [toString36_from]. rewrite (proj2 (N.eqb_eq _ _) Hq).
    pose proof (N.Div0.div_mod n 36) as Hdm. rewrite Hq in Hdm.
    pose proof (N.mod_upper_bound n 36 ltac:(lia)) as Hm.
    repeat split; try done.
    + cbn [value36]. rewrite digit_value36_digit36 by done. lia.
    + cbn. lia.
  - cbn [toString36_from].
    pose proof (N.Div0.div_mod n 36) as Hdm.
    pose proof (N.mod_upper_bound n 36 ltac:(lia)) as Hm.
    destruct (n / 36 =? 0)%N eqn:Eq.
    + apply N.eqb_eq in Eq. rewrite Eq in Hdm.
      exists [digit36 (n mod 36)], 0.
      repeat split; try done.
      * cbn [value36]. rewrite digit_value36_digit36 by done. lia.
      * change (36 ^ N.of_nat 1)%N with 36%N. lia.
      * cbn. lia.
    + apply N.eqb_neq in Eq.
      assert (Hq : (n / 36 < 36 ^ N.of_nat (S f))%N).
      { apply N.Div0.div_lt_upper_bound.
        rewrite (Nat2N.inj_succ (S f)), N.pow_succ_r' in Hn. exact Hn. }
      destruct (IH (n / 36)%N (digit36 (n mod 36) :: acc) Hq)
        as (ds & k & Hs & Hv & Hl & Hup & Hlow).
      exists (ds ++ [digit36 (n mod 36)]), (S k).
      split; [|split; [|split; [|split]]].
      * cbn [toString36_from] in Hs. rewrite Hs. by rewrite <- app_assoc.
      * rewrite value36_app, Hv. cbn [value36].
        rewrite digit_value36_digit36 by done. lia.
      * rewrite length_app, Hl. cbn. lia.
      * rewrite (Nat2N.inj_succ (S k)), N.pow_succ_r'.
        clear Hlow Hq Hn IH Hs Hv. set (P := (36 ^ N.of_nat (S k))%N) in *. clearbody P.
        set (q := (n / 36)%N) in *. clearbody q.
        set (r := (n mod 36)%N) in *. clearbody r. lia.
      * intros _. specialize (Hlow Eq).
        rewrite (Nat2N.inj_succ k), N.pow_succ_r'.
        clear Hup Hq Hn IH Hs Hv. set (P := (36 ^ N.of_nat k)%N) in *. clearbody P.
        set (q := (n / 36)%N) in *. clearbody q.
        set (r := (n mod 36)%N) in *. clearbody r. lia.
Qed.

Lemma size_nat_size n : N.of_nat (N.size_nat n) = N.size n.
Proof.
  destruct n as [|p]; [done|]. cbn.
  induction p as [p IH|p IH|]; cbn [Pos.size_nat Pos.size]; try done;
    rewrite Nat2N.inj_succ, IH; by destruct (Pos.size p).
Qed.

Lemma toString36_fuel n : (n < 36 ^ N.of_nat (S (N.size_nat n)))%N.
Proof.
  rewrite Nat2N.inj_succ, size_nat_size.
  pose proof (N.size_gt n) as H2.
  pose proof (N.pow_le_mono_l 2 36 (N.size n) ltac:(lia)) as H36.
  pose proof (N.pow_le_mono_r 36 (N.size n) (N.succ (N.size n)) ltac:(lia) ltac:(lia)).
  lia.
Qed.

Lemma toString36_spec n :
  ∃ k,
    value36 0 (toString36 n) = n ∧
    length (toString36 n) = S k ∧
    (n < 36 ^ N.of_nat (S k))%N ∧
    (n ≠ 0%N → (36 ^ N.of_nat k ≤ n)%N).
Proof.
  destruct (toString36_from_spec (N.size_nat n) n [] (toString36_fuel n))
    as (ds & k & Hs & Hv & Hl & Hup & Hlow).
  exists k. unfold toString36. rewrite Hs, app_nil_r. done.
Qed.

Lemma toString36_inj a b : toString36 a = toString36 b → a = b.
Proof.
  intros H. destruct (toString36_spec a) as (? & Ha & _).
  destruct (toString36_spec b) as (? & Hb & _). congruence.
Qed.

Lemma toString36_not_empty n : toString36 n ≠ [].
Proof.
  destruct (toString36_spec n) as (k & _ & Hl & _). intros H. by rewrite H in Hl.
Qed.

Lemma toString36_eight t : eight_digits t → length (toString36 t) = 8.
Proof.
  intros [Hlo Hhi]. destruct (toString36_spec t) as (k & _ & Hl & Hup & Hlow).
  rewrite Hl. f_equal.
  assert (Ht : t ≠ 0%N).
  { intros ->. vm_compute in Hlo. by apply Hlo. }
  specialize (Hlow Ht).
  destruct (decide (k < 7)) as [Hk|Hk].
  { pose proof (N.pow_le_mono_r 36 (N.of_nat (S k)) 7 ltac:(lia) ltac:(lia)). lia. }
  destruct (decide (7 < k)) as [Hk'|Hk']; [|lia].
  pose proof (N.pow_le_mono_r 36 8 (N.of_nat k) ltac:(lia) ltac:(lia)). lia.
Qed.

Lemma generateId_unfold w :
  (generateId w).1 = now36At w (calls w) ++ substring_from 2 (rand36At w (S (calls w))).
Proof. reflexivity. Qed.

(** X6.  In a world whose readings of [Date.now()] are whole numbers of
    milliseconds, the id that [generateId] gives is never empty, and the
    ids it gives at two readings that differ, both written with eight
    digits in base 36 (June 1972 to May 2059), differ, whatever
    [Math.random()] gives. *)
Theorem generateId_by_time ms1 ms2 w1 w2 :
  clocked ms1 w1 → clocked ms2 w2 →
  (generateId w1).1 ≠ [] ∧
  (eight_digits (ms1 (calls w1)) → eight_digits (ms2 (calls w2)) →
   ms1 (calls w1) ≠ ms2 (calls w2) →
   (generateId w1).1 ≠ (generateId w2).1).
Proof.
  intros Hc1 Hc2. split.
  - rewrite generateId_unfold, Hc1.
    pose proof (toString36_not_empty (ms1 (calls w1))) as Hne.
    by destruct (toString36 (ms1 (calls w1))).
  - intros H1 H2 Hne. apply generateId_distinct; rewrite Hc1, Hc2.
    + by rewrite !toString36_eight.
    + intros Heq. by apply Hne, toString36_inj.
Qed.

Lemma generateId_by_time_witness :
  (generateId clocked_world).1 ≠ [] ∧
  (generateId clocked_world).1 ≠ (generateId (later 4 clocked_world)).1.
Proof.
  destruct (generateId_by_time ms_sample ms_sample clocked_world (later 4 clocked_world))
    as [Hne Hd]; [by intros k|by intros k|].
  split; [exact Hne|]. apply Hd.
  - split; [vm_compute; discriminate|vm_compute; reflexivity].
  - split; [vm_compute; discriminate|vm_compute; reflexivity].
  - vm_compute. discriminate.
Defined.

(** ** Stores whose ids differ *)

Lemma notes_with_id_unique a l :
  NoDup (id <$> l) → a ∈ id <$> l → length (notes_with_id a l) = 1.
Proof.
  induction l as [|n l IH]; intros Hnd Hin; [by apply elem_of_nil in Hin|].
  cbn [fmap list_fmap] in *. apply NoDup_cons in Hnd as [Hn Hnd].
  destruct (decide (id n = a)) as [<-|Hne].
  - rewrite notes_with_id_cons_eq, notes_with_id_fresh; [done|].
    intros m Hm Heq. apply Hn. rewrite <- Heq. apply list_elem_of_fmap. eauto.
  - unfold notes_with_id in *. rewrite filter_cons_False by done.
    apply IH; [done|]. apply elem_of_cons in Hin as [Heq|Hin]; [congruence|done].
Qed.

Lemma well_formed_store_inv s : well_formed s → store_inv s.
Proof.
  intros [Hnd Hact] a Ha. apply notes_with_id_unique; [done|]. by apply Hact.
Qed.

Lemma created_notes_seq n w :
  created_notes n w = (λ j, created_note (later (4 * j) w)) <$> seq 0 n.
Proof.
  revert w. induction n as [|n IH]; intros w; [reflexivity|].
  cbn [created_notes seq fmap list_fmap]. f_equal.
  rewrite IH, <- fmap_S_seq, <- list_fmap_compose.
  apply list_fmap_ext. intros _ j _. cbn [compose]. rewrite later_later.
  do 2 f_equal. lia.
Qed.

Lemma created_ids_distinct ms w n :
  clocked ms w →
  (∀ j, j < n → eight_digits (ms (4 * j + calls w))) →
  (∀ j1 j2, j1 < j2 < n → ms (4 * j1 + calls w) ≠ ms (4 * j2 + calls w)) →
  NoDup (id <$> created_notes n w).
Proof.
  intros Hc He Hd. rewrite created_notes_seq, <- list_fmap_compose.
  apply NoDup_fmap_2_strong; [|apply NoDup_seq].
  intros j1 j2 Hj1 Hj2 Heq. apply elem_of_seq in Hj1, Hj2.
  destruct (decide (j1 = j2)) as [|Hne]; [done|]. exfalso.
  assert (Hms : ms (4 * j1 + calls w) ≠ ms (4 * j2 + calls w)).
  { destruct (decide (j1 < j2)).
    - apply Hd. lia.
    - intros Hs. symmetry in Hs. revert Hs. apply Hd. lia. }
  apply (generateId_distinct (later (4 * j1) w) (later (4 * j2) w)); [| |exact Heq];
    cbn [now36At calls later]; rewrite !Hc.
  - rewrite !toString36_eight; [done|apply He; lia|apply He; lia].
  - intros Hs. by apply Hms, toString36_inj.
Qed.

(** X7.  Notes created at different milliseconds have different ids:
    in a world whose readings of [Date.now()] are whole numbers written
    with eight digits in base 36, and differ from one click to another,
    [n] clicks from the empty store, each after the cool-down of the one
    before, give a list whose ids all differ, and exactly one note has
    the active id. *)
Theorem clicks_distinct_ids ms w n :
  clocked ms w →
  (∀ j, j < n → eight_digits (ms (4 * j + calls w))) →
  (∀ j1 j2, j1 < j2 < n → ms (4 * j1 + calls w) ≠ ms (4 * j2 + calls w)) →
  NoDup (ids (noteStore (run (clicks n) initialApp w).1)) ∧
  store_inv (noteStore (run (clicks n) initialApp w).1).
Proof.
  intros Hc He Hd.
  pose proof (created_ids_distinct ms w n Hc He Hd) as Hnd.
  assert (Hwf : well_formed (noteStore (run (clicks n) initialApp w).1)).
  { rewrite run_clicks by done. unfold well_formed, ids.
    cbn [fst noteStore notes activeNoteId initialApp emptyStore].
    rewrite app_nil_r, fmap_reverse. split.
    - by rewrite reverse_Permutation.
    - intros a Ha. apply elem_of_reverse.
      destruct (last (created_notes n w)) as [x|] eqn:El; [|done].
      cbn in Ha. injection Ha as <-.
      apply list_elem_of_fmap. exists x. split; [done|].
      by apply last_Some_elem_of. }
  split; [apply Hwf|by apply well_formed_store_inv].
Qed.

Lemma clicks_distinct_ids_witness :
  NoDup (ids (noteStore (run (clicks 2) initialApp clocked_world).1)) ∧
  store_inv (noteStore (run (clicks 2) initialApp clocked_world).1).
Proof.
  apply (clicks_distinct_ids ms_sample clocked_world 2).
  - intros k. reflexivity.
  - intros j Hj. destruct j as [|[|j]]; [| |lia];
      (split; [vm_compute; discriminate|vm_compute; reflexivity]).
  - intros j1 j2 Hj. destruct j1 as [|[|j1]]; destruct j2 as [|[|j2]]; try lia.
    vm_compute. discriminate.
Defined.

(** ** Runs of the page as the list lets them be *)

Lemma ids_deleteNote i s : ids (deleteNote i s) = filter (λ x, x ≠ i) (ids s).
Proof.
  unfold ids, deleteNote. cbn [notes]. induction (notes s) as [|n l IH]; [done|].
  cbn [fmap list_fmap]. rewrite !filter_cons.
  destruct (decide (id n ≠ i)); cbn [fmap list_fmap]; by rewrite IH.
Qed.

Lemma activeNoteId_updateCurrentNote r c s w :
  activeNoteId (updateCurrentNote r c s w).1 = activeNoteId s.
Proof.
  destruct (updateCurrentNote_cases r c s w) as [->|(a & Ha & -> & _)]; done.
Qed.

Lemma handle_well_formed e app w :
  well_formed (noteStore app) → listed e (noteStore app) → fresh_id e app w →
  well_formed (noteStore (handle e app w).1).
Proof.
  intros [Hnd Hact] Hl Hf. destruct e; cbn [handle].
  - destruct (isCreating app) eqn:Hc.
    + by rewrite createNewNote_cooling.
    + rewrite createNewNote_idle by done. cbn [fst noteStore].
      specialize (Hf Hc). rewrite generateId_unfold in Hf. split.
      * unfold ids. cbn [notes fmap list_fmap]. apply NoDup_cons. split; done.
      * intros a Ha. cbn [activeNoteId] in Ha. injection Ha as <-.
        unfold ids. cbn [notes fmap list_fmap]. left.
    - done.
    - unfold bind, ret.
      pose proof (updateCurrentNote_ids rendered content0 (noteStore app) w) as Hids.
      pose proof (activeNoteId_updateCurrentNote rendered content0 (noteStore app) w) as Ha.
      destruct (updateCurrentNote rendered content0 (noteStore app) w) as [s' w'].
      cbn [fst noteStore] in *. unfold well_formed, ids. by rewrite Hids, Ha.
    - cbn [fst ret noteStore]. split; [done|]. intros a [= <-]. exact Hl.
    - cbn [fst ret noteStore]. split.
      + rewrite ids_deleteNote. by apply NoDup_filter.
      + intros a. unfold deleteNote at 1. cbn [activeNoteId].
        destruct (decide (activeNoteId (noteStore app) = Some i)) as [|Hne]; [done|].
        intros Ha. rewrite ids_deleteNote. apply list_elem_of_filter.
        split; [congruence|by apply Hact].
Qed.

Lemma run_well_formed es app w :
  well_formed (noteStore app) → ui_run es app w →
  well_formed (noteStore (run es app w).1).
Proof.
  revert app w. induction es as [|e es IH]; intros app w Hwf Hui; [done|].
  cbn [ui_run] in Hui. destruct Hui as (Hl & Hf & Hui).
  cbn [run]. unfold bind.
  pose proof (handle_well_formed e app w Hwf Hl Hf) as Hwf'.
  destruct (handle e app w) as [app' w']. cbn [fst snd] in *. by apply IH.
Qed.

(** X8.  The page as the list drives it keeps the invariant of the
    store.  Take a run in which every click on a note or on a delete
    button carries the id of a note of the list at that time, and every
    id generated is the id of no note of the list; from a store whose
    ids differ and whose active id, if any, is one of them, the store
    reached is such a store again, and exactly one note has its active
    id. *)
Theorem ui_run_keeps_invariant es app w :
  well_formed (noteStore app) → ui_run es app w →
  well_formed (noteStore (run es app w).1) ∧
  store_inv (noteStore (run es app w).1).
Proof.
  intros Hwf Hui. pose proof (run_well_formed es app w Hwf Hui) as H.
  split; [done|by apply well_formed_store_inv].
Qed.

Lemma ui_run_keeps_invariant_witness :
  well_formed (noteStore
    (run [NewNoteClicked;
          ContentChanged (Some (js "lvo2k5c04fzyo82mvyr")) (js "Hello");
          DeleteClicked (js "lvo2k5c04fzyo82mvyr")]
         initialApp ticking_world).1) ∧
  store_inv (noteStore
    (run [NewNoteClicked;
          ContentChanged (Some (js "lvo2k5c04fzyo82mvyr")) (js "Hello");
          DeleteClicked (js "lvo2k5c04fzyo82mvyr")]
         initialApp ticking_world).1).
Proof.
  apply (ui_run_keeps_invariant
           [NewNoteClicked;
            ContentChanged (Some (js "lvo2k5c04fzyo82mvyr")) (js "Hello");
            DeleteClicked (js "lvo2k5c04fzyo82mvyr")]
           initialApp ticking_world).
  - split; [constructor|]. intros a Ha. discriminate Ha.
  - cbn. split; [exact I|]. split.
    + intros _ Hin. by apply elem_of_nil in Hin.
    + split; [exact I|]. split; [exact I|]. split; [left|]. split; exact I.
Defined.

(** ** The invariant of the store, handler by handler *)

Lemma store_inv_updated r c s w : store_inv s → store_inv (updateCurrentNote r c s w).1.
Proof.
  intros Hinv a Ha.
  rewrite (notes_with_id_ids a _ (notes s)) by apply updateCurrentNote_ids.
  apply Hinv. by rewrite activeNoteId_updateCurrentNote in Ha.
Qed.

Lemma store_inv_deleted i s : store_inv s → store_inv (deleteNote i s).
Proof.
  intros Hinv a. unfold deleteNote; cbn [notes activeNoteId].
  destruct (decide (activeNoteId s = Some i)) as [|Hne]; [done|].
  intros Ha. rewrite notes_with_id_delete by congruence. by apply Hinv.
Qed.

Lemma notes_with_id_nil a l : notes_with_id a l = [] ↔ a ∉ id <$> l.
Proof.
  unfold notes_with_id. induction l as [|n l IH].
  { split; [intros _; apply not_elem_of_nil|done]. }
  cbn [fmap list_fmap]. rewrite not_elem_of_cons, filter_cons.
  destruct (decide (id n = a)) as [Heq|Hne].
  - split; [done|]. intros [Hna _]. by destruct Hna.
  - rewrite IH. split; [|tauto]. intros H. split; [congruence|done].
Qed.

Lemma createNewNote_store_inv s w :
  store_inv (noteStore (createNewNote (mkApp s false) w).1)
  ↔ (generateId w).1 ∉ ids s.
Proof.
  rewrite createNewNote_idle by done. cbn [fst noteStore].
  rewrite generateId_unfold. unfold ids. rewrite <- notes_with_id_nil.
  change (now36At w (calls w) ++ substring_from 2 (rand36At w (S (calls w))))
    with (id (created_note w)).
  split.
  - intros Hinv. specialize (Hinv (id (created_note w)) eq_refl). cbn [notes] in Hinv.
    rewrite notes_with_id_cons_eq in Hinv. cbn [length] in Hinv.
    apply nil_length_inv. lia.
  - intros Hnil a Ha. cbn [activeNoteId notes] in *.
    assert (a = id (created_note w)) as -> by congruence.
    by rewrite notes_with_id_cons_eq, Hnil.
Qed.

(** X15.  The invariant of the store, handler by handler.  On a store
    in which an active id is the id of exactly one note,
    [updateCurrentNote] and [deleteNote] give such a store again,
    whatever they are called with; [selectNote] does exactly when one
    note has the id it is given; and [createNewNote], outside the
    cool-down, does exactly when the id generated is the id of no note
    of the list, which the code does not check. *)
Theorem handlers_keep_store_inv s :
  store_inv s →
  (∀ r c w, store_inv (updateCurrentNote r c s w).1) ∧
  (∀ i, store_inv (deleteNote i s)) ∧
  (∀ i, store_inv (selectNote i s) ↔ length (notes_with_id i (notes s)) = 1) ∧
  (∀ w, store_inv (noteStore (createNewNote (mkApp s false) w).1)
        ↔ (generateId w).1 ∉ ids s).
Proof.
  intros Hinv.
  split; [intros r c w; by apply store_inv_updated|].
  split; [intros i; by apply store_inv_deleted|].
  split; [|apply createNewNote_store_inv].
  intros i. split.
  - intros H. by apply (H i).
  - intros H a [= <-]. exact H.
Qed.

Lemma handlers_keep_store_inv_witness :
  store_inv (updateCurrentNote (activeNoteId two_notes) (js "Bye") two_notes
                               ticking_world).1 ∧
  store_inv (deleteNote (id sample_note) two_notes) ∧
  store_inv (selectNote (id other_note) two_notes) ∧
  ¬ store_inv (selectNote (js "x") two_notes) ∧
  ¬ store_inv (noteStore (createNewNote (mkApp two_notes false) ticking_world).1).
Proof.
  destruct (handlers_keep_store_inv two_notes) as (Hu & Hd & Hs & Hc).
  - intros a [= <-]. reflexivity.
  - split; [apply Hu|]. split; [apply Hd|]. split; [apply Hs; reflexivity|].
    split.
    + intros H. apply Hs in H. discriminate H.
    + intros H. apply Hc in H. apply H. right. left.
Defined.

(** ** Values that have the shape of a store *)

Lemma Note_ofJS_renders v n : Note_ofJS v = Some n → row_renders v = true.
Proof.
  unfold Note_ofJS, row_renders. intros H.
  destruct (get (js "id") v ≫= as_string) as [i|] eqn:Ei; [|done].
  cbn [mbind option_bind] in H.
  destruct (get (js "content") v) as [c|] eqn:Ec; [|done].
  destruct c; try done. destruct v; try done.
  by destruct (JSON_truthy (JString s)).
Qed.

Lemma mapM_Note_ofJS_render l ns :
  mapM Note_ofJS l = Some ns → forallb row_renders l = true.
Proof.
  revert ns. induction l as [|v l IH]; intros ns H; [done|].
  cbn [mapM] in H. destruct (Note_ofJS v) as [n|] eqn:En; [|done].
  cbn [mbind option_bind] in H.
  destruct (mapM Note_ofJS l) as [ns'|] eqn:El; [|done].
  cbn [forallb]. by rewrite (Note_ofJS_renders v n En), (IH ns').
Qed.

(** X16.  A value that has the shape of a store is rendered: when the
    state is an object with a [notes] array of objects whose [id],
    [content], [createdAt] and [updatedAt] are strings, and an
    [activeNoteId] that is a string or null, whatever other members it
    has, the render of [Home] does not throw; so a stored text that
    [JSON.parse] reads as such a value becomes the state and the page
    shows it. *)
Theorem store_shaped_renders v s :
  ofJS v = Some s →
  Home_renders v = true ∧
  ∀ text, JSON_parse text = Some v → startup (Some text) = Some v.
Proof.
  intros H.
  assert (Hr : Home_renders v = true).
  { unfold ofJS in H. destruct v as [| | | | |ms]; try done. cbn [get] in H.
    unfold Home_renders. destruct (assoc (js "notes") ms) as [[| | | |l|]|]; try done.
    destruct (mapM Note_ofJS l) as [ns|] eqn:El; [|done].
    by apply (mapM_Note_ofJS_render l ns). }
  split; [done|]. intros text Hp. unfold startup.
  by rewrite (loadNotes_parsed text v Hp), Hr.
Qed.

Lemma store_shaped_renders_witness :
  Home_renders (JObject [(js "version", JNumber (js "2"));
                         (js "notes", JArray [Note_toJS unicode_note]);
                         (js "activeNoteId", JNull)]) = true.
Proof.
  apply (store_shaped_renders
           (JObject [(js "version", JNumber (js "2"));
                     (js "notes", JArray [Note_toJS unicode_note]);
                     (js "activeNoteId", JNull)])
           (mkStore [unicode_note] None)).
  reflexivity.
Defined.

(** ** What a save touches *)

Lemma saveNotes_refused d st :
  quota st < length (payload d) → saveNotes d st = st.
Proof.
  intros Hq. rewrite saveNotes_unfold. unfold setItem. rewrite decide_False by lia. done.
Qed.

(** X9.  A save writes under its key and nowhere else, and leaves the
    quota as it is.  A write that the storage refuses is caught and
    changes nothing: hydration still reads the snapshot saved before.
    A write that the storage takes replaces that snapshot. *)
Theorem saveNotes_frame d st :
  quota (saveNotes d st) = quota st ∧
  (∀ k, k ≠ STORAGE_KEY → getItem k (saveNotes d st) = getItem k st) ∧
  (quota st < length (payload d) → saveNotes d st = st) ∧
  (∀ d0, length (payload d0) ≤ quota st →
         quota st < length (payload d) →
         hydrate (saveNotes d (saveNotes d0 st)) = toJS d0) ∧
  (∀ d0, length (payload d) ≤ quota st →
         hydrate (saveNotes d (saveNotes d0 st)) = toJS d).
Proof.
  split; [apply saveNotes_quota|]. split; [|split; [apply saveNotes_refused|split]].
  - intros k Hk. rewrite saveNotes_unfold. unfold setItem, getItem.
    destruct (decide (length (payload d) ≤ quota st)); [|done].
    cbn [items]. by rewrite lookup_insert_ne.
  - intros d0 H0 Hd. rewrite saveNotes_refused by (by rewrite saveNotes_quota).
    by apply hydrate_saveNotes.
  - intros d0 Hd. apply hydrate_saveNotes. by rewrite saveNotes_quota.
Qed.

Lemma saveNotes_frame_witness :
  saveNotes sample_store small_storage = small_storage ∧
  hydrate (saveNotes sample_store (saveNotes emptyStore small_storage)) = toJS emptyStore ∧
  hydrate (saveNotes emptyStore (saveNotes sample_store small_storage)) = toJS emptyStore ∧
  getItem (js "theme") (saveNotes emptyStore small_storage)
  = getItem (js "theme") small_storage.
Proof.
  destruct (saveNotes_frame sample_store small_storage) as (_ & _ & Hr & Hk & _).
  destruct (saveNotes_frame emptyStore small_storage) as (_ & Ho & _ & _ & Ht).
  split; [|split; [|split]].
  - apply Hr. apply Nat.ltb_lt. vm_compute. reflexivity.
  - apply Hk; [apply Nat.leb_le|apply Nat.ltb_lt]; vm_compute; reflexivity.
  - apply Ht. apply Nat.leb_le. vm_compute. reflexivity.
  - apply Ho. discriminate.
Defined.

(** ** Changes of the store that are not a burst *)

Lemma storeChanges_app l1 l2 p :
  storeChanges (l1 ++ l2) p = storeChanges l2 (storeChanges l1 p).
Proof.
  revert p. induction l1 as [|[now data] l1 IH]; intros p; [done|].
  cbn [app storeChanges]. apply IH.
Qed.

Lemma storeChanged_due now data prev d p :
  persist_inv p →
  timers p = [mkTimer (pred (next_timer p)) (prev + wait_save) d] →
  (prev + wait_save ≤ now)%Z →
  timers (storeChanged now data p)
  = [mkTimer (pred (next_timer (storeChanged now data p))) (now + wait_save) data] ∧
  backend (storeChanged now data p) = save d (backend p).
Proof.
  intros Hinv Ht Hdue. unfold storeChanged.
  rewrite (elapse_due now _ p Ht) by done. cbn [timer_args].
  rewrite debouncedSave_timers by (by left). done.
Qed.

Lemma spaced_writes l prev d p T :
  persist_inv p →
  timers p = [mkTimer (pred (next_timer p)) (prev + wait_save) d] →
  spaced prev l →
  ((default (prev, d) (last l)).1 + wait_save ≤ T)%Z →
  backend (elapse T (storeChanges l p))
  = foldl (λ b x, save x b) (backend p) (d :: (snd <$> l)) ∧
  timers (elapse T (storeChanges l p)) = [].
Proof.
  revert prev d p. induction l as [|[now data] l IH]; intros prev d p Hinv Ht Hs HT.
  { cbn [storeChanges]. rewrite (elapse_due T _ p Ht) by done. done. }
  cbn [spaced] in Hs. destruct Hs as [Hnow Hs].
  destruct (storeChanged_due now data prev d p Hinv Ht Hnow) as (Ht' & Hb').
  cbn [storeChanges].
  destruct (IH now data (storeChanged now data p)) as (Hb'' & Ht'');
    [by apply storeChanged_inv|done|done| |].
  { destruct l as [|x l]; [done|]. rewrite last_cons_cons in HT.
    destruct (last (x :: l)) eqn:E; [done|]. by apply last_None in E. }
  rewrite Hb'', Hb'. done.
Qed.

Lemma foldl_save_calls l b :
  setItem_calls (foldl (λ b x, save x b) b l)
  = setItem_calls b ++ ((λ x, (STORAGE_KEY, payload x)) <$> l).
Proof.
  revert b. induction l as [|x l IH]; intros b; [by rewrite app_nil_r|].
  cbn [foldl fmap list_fmap]. by rewrite IH, save_calls, <- app_assoc.
Qed.

Lemma foldl_save_held l b :
  held (foldl (λ b x, save x b) b l) = foldl (λ st x, saveNotes x st) (held b) l.
Proof.
  revert b. induction l as [|x l IH]; intros b; [done|].
  cbn [foldl]. by rewrite IH, save_held.
Qed.

Lemma foldl_saveNotes_quota l st :
  quota (foldl (λ st x, saveNotes x st) st l) = quota st.
Proof.
  revert st. induction l as [|x l IH]; intros st; [done|].
  cbn [foldl]. by rewrite IH, saveNotes_quota.
Qed.

Lemma last_default {A} (x : A) l : last (x :: l) = Some (default x (last l)).
Proof.
  destruct l as [|y l]; [done|]. rewrite last_cons_cons.
  destruct (last (y :: l)) eqn:E; [done|]. by apply last_None in E.
Qed.

(** X10.  Changes that are not a burst are all written: from a page
    with no save pending, when each change comes at least the wait after
    the one before, once the wait has passed after the last one
    [localStorage] has received one call of [setItem] for every change,
    in their order, each under the key of the page and with the text of
    the store of that change; the storage is what these saves make of
    it, one after the other; when it takes a text of the length of the
    last one, that text is what it holds under the key, and hydration
    from it gives the store of the last change; and no save is
    pending. *)
Theorem spaced_changes_all_written p t1 d1 l T :
  persist_inv p → timers p = [] →
  spaced t1 l →
  ((default (t1, d1) (last l)).1 + wait_save ≤ T)%Z →
  setItem_calls (backend (elapse T (storeChanges ((t1, d1) :: l) p)))
  = setItem_calls (backend p)
    ++ ((λ x, (STORAGE_KEY, payload x.2)) <$> (t1, d1) :: l) ∧
  storage (elapse T (storeChanges ((t1, d1) :: l) p))
  = foldl (λ st x, saveNotes x st) (storage p) (snd <$> (t1, d1) :: l) ∧
  (length (payload (default (t1, d1) (last l)).2) ≤ quota (storage p) →
     getItem STORAGE_KEY (storage (elapse T (storeChanges ((t1, d1) :: l) p)))
     = Some (payload (default (t1, d1) (last l)).2) ∧
     ofJS (hydrate (storage (elapse T (storeChanges ((t1, d1) :: l) p))))
     = Some (default (t1, d1) (last l)).2) ∧
  timers (elapse T (storeChanges ((t1, d1) :: l) p)) = [].
Proof.
  intros Hinv Hno Hs HT. cbn [storeChanges].
  assert (Hp1 : storeChanged t1 d1 p = debouncedSave t1 d1 p).
  { unfold storeChanged. by rewrite elapse_idle. }
  destruct (spaced_writes l t1 d1 (storeChanged t1 d1 p) T) as (Hb & Ht);
    [by apply storeChanged_inv| |done|done|].
  { rewrite Hp1. by rewrite debouncedSave_timers. }
  assert (Hb1 : backend (storeChanged t1 d1 p) = backend p) by (by rewrite Hp1).
  rewrite Hb1 in Hb. unfold storage. rewrite Hb, Ht.
  change (d1 :: (snd <$> l)) with (snd <$> (t1, d1) :: l).
  rewrite foldl_save_calls, foldl_save_held, <- list_fmap_compose.
  split; [done|]. split; [done|]. split; [|done].
  intros Hq.
  destruct (proj1 (last_Some _ _) (last_default (t1, d1) l)) as [l' Hl'].
  rewrite Hl', fmap_app, foldl_app. cbn [fmap list_fmap foldl].
  assert (Hq' : length (payload (default (t1, d1) (last l)).2)
                ≤ quota (foldl (λ st x, saveNotes x st) (held (backend p)) (snd <$> l'))).
  { by rewrite foldl_saveNotes_quota. }
  split; [by apply saveNotes_getItem|].
  rewrite hydrate_saveNotes by done. apply ofJS_toJS.
Qed.

Lemma spaced_changes_all_written_witness :
  setItem_calls (backend (elapse 2500 (storeChanges sample_changes
                                         (initialPersist sample_storage))))
  = [(STORAGE_KEY, payload emptyStore); (STORAGE_KEY, payload sample_store);
     (STORAGE_KEY, payload two_notes)] ∧
  storage (elapse 2500 (storeChanges sample_changes (initialPersist sample_storage)))
  = saveNotes two_notes (saveNotes sample_store (saveNotes emptyStore sample_storage)) ∧
  ofJS (hydrate (storage (elapse 2500 (storeChanges sample_changes
                                         (initialPersist sample_storage)))))
  = Some two_notes ∧
  timers (elapse 2500 (storeChanges sample_changes (initialPersist sample_storage))) = [].
Proof.
  destruct (spaced_changes_all_written (initialPersist sample_storage) 0%Z emptyStore
              [(1000%Z, sample_store); (2000%Z, two_notes)] 2500%Z)
    as (Hcalls & Hst & Hheld & Hnone).
  - left. reflexivity.
  - reflexivity.
  - cbn. unfold wait_save. repeat split; lia.
  - cbn. unfold wait_save. lia.
  - split; [exact Hcalls|]. split; [exact Hst|]. split; [|exact Hnone].
    apply Hheld. apply Nat.leb_le. vm_compute. reflexivity.
Defined.

(** X11.  The latest change waits: after any changes of the store, the
    snapshot of the last one is the one save pending, due the wait
    after it came; until then the event loop writes nothing, and the
    storage holds what it held when that change came. *)
Theorem last_change_pending p l t d T :
  persist_inv p → (T < t + wait_save)%Z →
  timers (storeChanges (l ++ [(t, d)]) p)
  = [mkTimer (pred (next_timer (storeChanges (l ++ [(t, d)]) p))) (t + wait_save) d] ∧
  elapse T (storeChanges (l ++ [(t, d)]) p) = storeChanges (l ++ [(t, d)]) p ∧
  storage (storeChanges (l ++ [(t, d)]) p) = storage (elapse t (storeChanges l p)) ∧
  written (storeChanges (l ++ [(t, d)]) p) = written (elapse t (storeChanges l p)).
Proof.
  intros Hinv HT. rewrite storeChanges_app. cbn [storeChanges].
  set (q := storeChanges l p).
  assert (Hq : persist_inv (elapse t q)) by (by apply elapse_inv, storeChanges_inv).
  assert (Ht : timers (storeChanged t d q)
               = [mkTimer (pred (next_timer (storeChanged t d q))) (t + wait_save) d]).
  { unfold storeChanged. by rewrite debouncedSave_timers. }
  split; [done|]. split; [|done].
  by apply (elapse_not_due T _ _ Ht).
Qed.

Lemma last_change_pending_witness :
  timers (storeChanges sample_burst (initialPersist sample_storage))
  = [mkTimer (pred (next_timer (storeChanges sample_burst (initialPersist sample_storage))))
             (100 + wait_save) sample_store] ∧
  elapse 599 (storeChanges sample_burst (initialPersist sample_storage))
  = storeChanges sample_burst (initialPersist sample_storage) ∧
  storage (storeChanges sample_burst (initialPersist sample_storage))
  = storage (elapse 100 (storeChanges [(0%Z, emptyStore)] (initialPersist sample_storage))) ∧
  written (storeChanges sample_burst (initialPersist sample_storage))
  = written (elapse 100 (storeChanges [(0%Z, emptyStore)] (initialPersist sample_storage))).
Proof.
  apply (last_change_pending (initialPersist sample_storage) [(0%Z, emptyStore)]
           100%Z sample_store 599%Z).
  - left. reflexivity.
  - unfold wait_save. lia.
Defined.

(** ** The editor *)

Lemma elapseEdits_idle now p w : edit_timers p = [] → elapseEdits now p w = (p, w).
Proof. intros H. unfold elapseEdits. by rewrite H. Qed.

Lemma elapseEdits_not_due now t p w :
  edit_timers p = [t] → (now < edit_due t)%Z → elapseEdits now p w = (p, w).
Proof.
  intros H Hd. unfold elapseEdits. by rewrite H, filter_cons_False by lia.
Qed.

Lemma elapseEdits_due now t p w :
  edit_timers p = [t] → (edit_due t ≤ now)%Z → elapseEdits now p w = fireEdit t p w.
Proof.
  intros H Hd. unfold elapseEdits. rewrite H, filter_cons_True by done.
  cbn [filter list_filter fireEdits]. unfold bind, ret. by destruct (fireEdit t p w).
Qed.

Lemma typing_burst l prev v h s cb cp w :
  rapid_typing prev l →
  ∃ h',
    typing l (mkPage s cb cp v [mkEditTimer h (prev + wait_edit) v cb] (S h) (Some h)) w
    = (mkPage s cb cp (default (prev, v) (last l)).2
              [mkEditTimer h' ((default (prev, v) (last l)).1 + wait_edit)
                           (default (prev, v) (last l)).2 cb]
              (S h') (Some h'),
       w).
Proof.
  revert prev v h. induction l as [|[now v'] l IH]; intros prev v h Hr.
  { exists h. reflexivity. }
  cbn [rapid_typing] in Hr. destruct Hr as [Hnow Hr].
  cbn [typing]. unfold bind at 1.
  rewrite (elapseEdits_not_due now (mkEditTimer h (prev + wait_edit) v cb))
    by (done || (cbn; lia)).
  unfold handleChange.
  cbn [page_store onContentChange contentProp edit_timers edit_next edit_timeout
       clearEditTimeout].
  rewrite filter_cons_False by (intros Hne; by apply Hne).
  cbn [filter list_filter app].
  destruct (IH now v' (S h) Hr) as [h' Hh']. exists h'. rewrite Hh'.
  destruct l as [|x l]; [done|]. rewrite last_cons_cons.
  destruct (last (x :: l)) eqn:E; [done|]. by apply last_None in E.
Qed.

Lemma updateCurrentNote_of_same c s w :
  updateCurrentNote_of (activeNoteId s) c s w
  = if truthy (activeNoteId s)
    then (Some (updateCurrentNote (activeNoteId s) c s w).1,
          (updateCurrentNote (activeNoteId s) c s w).2)
    else (None, w).
Proof.
  unfold updateCurrentNote, updateCurrentNote_of.
  destruct (truthy (activeNoteId s)); [|done]. cbn [negb]. unfold bind, ret.
  by destruct (map_update (activeNoteId s) c (notes s) w).
Qed.

Lemma settled_mounted p :
  settled p →
  p = mkPage (page_store p) (activeNoteId (page_store p)) (noteContent (page_store p))
             (localContent p) [] (edit_next p) (edit_timeout p).
Proof. destruct p. intros (H1 & H2 & H3). cbn in *. by subst. Qed.

(** X12.  The editor echoes at once and stores once: on a page rendered
    on its store with no input pending, a burst of inputs, each less
    than 100 ms after the one before, changes [localContent] to the last
    value and leaves the store and the clock alone; once 100 ms have
    passed after the last input, the store is what one call of
    [updateCurrentNote] on the last value makes of it (the store as it
    was when no note is active), no input is pending, and
    [localContent] still is the last value. *)
Theorem typing_coalesces p t1 v1 l T w :
  settled p →
  rapid_typing t1 l →
  ((default (t1, v1) (last l)).1 + wait_edit ≤ T)%Z →
  page_store (typing ((t1, v1) :: l) p w).1 = page_store p ∧
  (typing ((t1, v1) :: l) p w).2 = w ∧
  localContent (typing ((t1, v1) :: l) p w).1 = (default (t1, v1) (last l)).2 ∧
  localContent (elapseEdits T (typing ((t1, v1) :: l) p w).1 w).1
  = (default (t1, v1) (last l)).2 ∧
  edit_timers (elapseEdits T (typing ((t1, v1) :: l) p w).1 w).1 = [] ∧
  (truthy (activeNoteId (page_store p)) = true →
     page_store (elapseEdits T (typing ((t1, v1) :: l) p w).1 w).1
     = (updateCurrentNote (activeNoteId (page_store p)) (default (t1, v1) (last l)).2
                        (page_store p) w).1 ∧
     (elapseEdits T (typing ((t1, v1) :: l) p w).1 w).2
     = (updateCurrentNote (activeNoteId (page_store p)) (default (t1, v1) (last l)).2
                        (page_store p) w).2) ∧
  (truthy (activeNoteId (page_store p)) = false →
     page_store (elapseEdits T (typing ((t1, v1) :: l) p w).1 w).1 = page_store p ∧
     (elapseEdits T (typing ((t1, v1) :: l) p w).1 w).2 = w).
Proof.
  intros Hset Hr HT. rewrite (settled_mounted p Hset).
  set (s := page_store p). cbn [page_store].
  set (vL := (default (t1, v1) (last l)).2) in *.
  set (tL := (default (t1, v1) (last l)).1) in *.
  destruct (typing_burst l t1 v1 (edit_next p) s (activeNoteId s) (noteContent s) w Hr)
    as [h' Hh']. fold vL tL in Hh'.
  match type of Hh' with _ = (?P, _) => set (p' := P) in * end.
  assert (Hty : typing ((t1, v1) :: l)
                  (mkPage s (activeNoteId s) (noteContent s) (localContent p) []
                          (edit_next p) (edit_timeout p)) w = (p', w)).
  { cbn [typing]. unfold bind. rewrite elapseEdits_idle by done.
    unfold handleChange.
    cbn [page_store onContentChange contentProp edit_timers edit_next edit_timeout].
    assert (Hcl : clearEditTimeout (edit_timeout p) [] = [])
      by (by destruct (edit_timeout p)).
    rewrite Hcl. cbn [app]. exact Hh'. }
  rewrite Hty. cbn [fst snd].
  split; [done|]. split; [done|]. split; [done|].
  assert (Hfire : elapseEdits T p' w
                  = if truthy (activeNoteId s)
                    then (rerender (updateCurrentNote (activeNoteId s) vL s w).1
                            (mkPage s (activeNoteId s) (noteContent s) vL [] (S h')
                                    (Some h')),
                          (updateCurrentNote (activeNoteId s) vL s w).2)
                    else (mkPage s (activeNoteId s) (noteContent s) vL [] (S h')
                                 (Some h'), w)).
  { rewrite (elapseEdits_due T (mkEditTimer h' (tL + wait_edit) vL (activeNoteId s)))
      by done.
    unfold fireEdit, p'.
    cbn [page_store onContentChange contentProp localContent edit_timers edit_next
         edit_timeout edit_id edit_callback edit_value].
    rewrite filter_cons_False by (intros Hne; by apply Hne).
    cbn [filter list_filter]. unfold bind. rewrite updateCurrentNote_of_same.
    by destruct (truthy (activeNoteId s)). }
  rewrite Hfire. clear Hfire Hty Hh'.
  destruct (truthy (activeNoteId s)) eqn:Ht;
    cbn [fst snd rerender page_store localContent edit_timers contentProp].
  - split; [|split; [done|split; [done|done]]].
    assert (Hn : noteContent (updateCurrentNote (activeNoteId s) vL s w).1
                 = if activeNote s is Some _ then vL else noteContent s).
    { unfold noteContent. rewrite (activeNote_updateCurrentNote (activeNoteId s) vL s w Ht).
      by destruct (activeNote s). }
    rewrite Hn. destruct (activeNote s) as [n|].
    + by destruct (decide (vL = noteContent s)).
    + by rewrite decide_True.
  - split; [done|]. split; [done|]. split; [done|]. done.
Qed.

Lemma typing_coalesces_witness :
  page_store (typing [(0%Z, (js "B")); (50%Z, (js "By")); (120%Z, (js "Bye"))] (mounted two_notes)
                     ticking_world).1 = two_notes ∧
  localContent (typing [(0%Z, (js "B")); (50%Z, (js "By")); (120%Z, (js "Bye"))] (mounted two_notes)
                       ticking_world).1 = (js "Bye") ∧
  page_store (elapseEdits 220
                (typing [(0%Z, (js "B")); (50%Z, (js "By")); (120%Z, (js "Bye"))] (mounted two_notes)
                        ticking_world).1 ticking_world).1
  = (updateCurrentNote (activeNoteId two_notes) (js "Bye") two_notes ticking_world).1.
Proof.
  destruct (typing_coalesces (mounted two_notes) 0%Z (js "B") [(50%Z, (js "By")); (120%Z, (js "Bye"))]
              220%Z ticking_world) as (Hs & _ & Hl & _ & _ & Ht & _).
  - repeat split.
  - cbn. unfold wait_edit. repeat split; lia.
  - cbn. unfold wait_edit. lia.
  - split; [exact Hs|]. split; [exact Hl|]. apply Ht. reflexivity.
Defined.

Lemma find_note_map_update_other a b c l w :
  a ≠ b → find_note a (map_update (Some b) c l w).1 = find_note a l.
Proof.
  intros Hab. revert w. induction l as [|n l IH]; intros w; [reflexivity|].
  cbn [map_update]. unfold bind, ret, new_Date_toISOString.
  destruct (decide (Some (id n) = Some b)) as [Heq|Hne].
  - specialize (IH (tick w)).
    destruct (map_update (Some b) c l (tick w)) as [l' w']. cbn [fst] in *.
    unfold find_note in *. cbn [find id].
    assert (Hid : id n = b) by congruence.
    rewrite !bool_decide_eq_false_2 by congruence. exact IH.
  - specialize (IH w). destruct (map_update (Some b) c l w) as [l' w']. cbn [fst] in *.
    unfold find_note in *. cbn [find]. by rewrite IH.
Qed.

Lemma handleChange_settled now v p :
  settled p →
  handleChange now v p
  = mkPage (page_store p) (activeNoteId (page_store p)) (noteContent (page_store p)) v
           [mkEditTimer (edit_next p) (now + wait_edit) v (activeNoteId (page_store p))]
           (S (edit_next p)) (Some (edit_next p)).
Proof.
  intros Hset. rewrite (settled_mounted p Hset) at 1. unfold handleChange.
  cbn [page_store onContentChange contentProp edit_timers edit_next edit_timeout].
  by destruct (edit_timeout p).
Qed.

(** X13.  What is typed goes to the note that is active when the 100 ms
    have passed, not to the note it was typed for: when a text is typed
    while a note with a non-empty id [a] is active, and another note of
    the list, with id [b], is clicked less than 100 ms later, then once
    the 100 ms have passed the note with id [b] is the active note and
    has the typed text as its content, and the note with id [a] is as it
    was. *)
Theorem typed_text_follows_selection p t v t' a b n T w :
  settled p →
  activeNoteId (page_store p) = Some a → a ≠ [] → a ≠ b →
  find_note b (notes (page_store p)) = Some n →
  (t ≤ t' < t + wait_edit)%Z → (t + wait_edit ≤ T)%Z →
  activeNoteId
    (page_store (elapseEdits T (clickNote t' b (handleChange t v p) w).1
                             (clickNote t' b (handleChange t v p) w).2).1) = Some b ∧
  activeNote
    (page_store (elapseEdits T (clickNote t' b (handleChange t v p) w).1
                             (clickNote t' b (handleChange t v p) w).2).1)
  = Some (mkNote (id n) v (createdAt n) (isoAt w (calls w))) ∧
  find_note a
    (notes (page_store (elapseEdits T (clickNote t' b (handleChange t v p) w).1
                                    (clickNote t' b (handleChange t v p) w).2).1))
  = find_note a (notes (page_store p)).
Proof.
  intros Hset Ha Hne Hab Hb Ht' HT.
  rewrite (handleChange_settled t v p Hset). set (s := page_store p) in *.
  set (tm := mkEditTimer (edit_next p) (t + wait_edit) v (activeNoteId s)).
  assert (Hclick : clickNote t' b
                     (mkPage s (activeNoteId s) (noteContent s) v [tm] (S (edit_next p))
                             (Some (edit_next p))) w
                   = (mkPage (selectNote b s) (Some b) (noteContent (selectNote b s))
                             (if decide (noteContent (selectNote b s) = noteContent s)
                              then v else noteContent (selectNote b s))
                             [tm] (S (edit_next p)) None, w)).
  { unfold clickNote, bind, ret.
    rewrite (elapseEdits_not_due t' tm) by (done || (cbn; lia)).
    unfold rerender.
    cbn [page_store onContentChange contentProp localContent edit_timers edit_next
         edit_timeout activeNoteId selectNote].
    rewrite Ha. by rewrite (decide_False (P := Some b = Some a)) by congruence. }
  rewrite Hclick. cbn [fst snd]. clear Hclick.
  rewrite (elapseEdits_due T tm) by (done || (cbn; lia)).
  unfold fireEdit, tm.
  cbn [page_store onContentChange contentProp localContent edit_timers edit_next
       edit_timeout edit_id edit_callback edit_value].
  rewrite filter_cons_False by (intros H; by apply H).
  cbn [filter list_filter]. unfold bind, updateCurrentNote_of.
  rewrite Ha. assert (Htr : truthy (Some a) = true) by (by destruct a).
  rewrite Htr. cbn [negb]. unfold bind, ret.
  cbn [selectNote notes activeNoteId].
  pose proof (find_note_map_update b v (notes s) w) as Hfb.
  pose proof (find_note_map_update_other a b v (notes s) w Hab) as Hfa.
  destruct (map_update (Some b) v (notes s) w) as [l' w'] eqn:E.
  cbn [fst snd rerender page_store activeNoteId notes] in *.
  split; [done|]. split; [|done].
  unfold activeNote. cbn [activeNoteId notes]. by rewrite Hfb, Hb.
Qed.

Lemma typed_text_follows_selection_witness :
  activeNote
    (page_store
       (elapseEdits 150
          (clickNote 60 (id other_note) (handleChange 0 (js "typed") (mounted two_notes))
                     ticking_world).1
          (clickNote 60 (id other_note) (handleChange 0 (js "typed") (mounted two_notes))
                     ticking_world).2).1)
  = Some (mkNote (id other_note) (js "typed") (createdAt other_note)
                 (isoAt ticking_world (calls ticking_world))).
Proof.
  destruct (typed_text_follows_selection (mounted two_notes) 0%Z (js "typed") 60%Z
              (id sample_note) (id other_note) other_note 150%Z ticking_world)
    as (_ & H & _).
  - repeat split.
  - reflexivity.
  - discriminate.
  - discriminate.
  - reflexivity.
  - unfold wait_edit. lia.
  - unfold wait_edit. lia.
  - exact H.
Defined.

(** X14.  What is typed while no note is active is shown and never
    stored: when a text is typed on a page whose active id is null or
    empty and whose editor content is empty, and the button is clicked
    less than 100 ms later, outside the cool-down, then once the 100 ms
    have passed the store is the one the click made, its new note is
    active with the empty content, and the editor still shows the typed
    text. *)
Theorem typed_without_note_not_stored p t v t' T w :
  settled p →
  truthy (activeNoteId (page_store p)) = false →
  noteContent (page_store p) = [] →
  (t ≤ t' < t + wait_edit)%Z → (t + wait_edit ≤ T)%Z →
  page_store (elapseEdits T (clickNew t' (handleChange t v p) w).1
                          (clickNew t' (handleChange t v p) w).2).1
  = noteStore (createNewNote (mkApp (page_store p) false) w).1 ∧
  activeNote
    (page_store (elapseEdits T (clickNew t' (handleChange t v p) w).1
                             (clickNew t' (handleChange t v p) w).2).1)
  = Some (created_note w) ∧
  localContent (elapseEdits T (clickNew t' (handleChange t v p) w).1
                            (clickNew t' (handleChange t v p) w).2).1 = v ∧
  edit_timers (elapseEdits T (clickNew t' (handleChange t v p) w).1
                           (clickNew t' (handleChange t v p) w).2).1 = [].
Proof.
  intros Hset Hf Hc Ht' HT.
  rewrite (handleChange_settled t v p Hset). set (s := page_store p) in *.
  set (tm := mkEditTimer (edit_next p) (t + wait_edit) v (activeNoteId s)).
  set (s2 := mkStore (created_note w :: notes s) (Some (id (created_note w)))).
  assert (Hact : activeNote s2 = Some (created_note w)).
  { unfold activeNote, s2, find_note. cbn [activeNoteId notes find].
    by rewrite bool_decide_eq_true_2. }
  assert (Hn2 : noteContent s2 = []).
  { unfold noteContent. by rewrite Hact. }
  assert (Hclick : ∃ o,
             clickNew t' (mkPage s (activeNoteId s) (noteContent s) v [tm]
                                 (S (edit_next p)) (Some (edit_next p))) w
             = (mkPage s2 (activeNoteId s2) [] v [tm] (S (edit_next p)) o, later 4 w)).
  { unfold clickNew, bind, ret.
    rewrite (elapseEdits_not_due t' tm) by (done || (cbn; lia)).
    cbn [page_store]. rewrite createNewNote_idle by done.
    cbn [noteStore notes]. fold s2. unfold rerender.
    cbn [page_store onContentChange contentProp localContent edit_timers edit_next
         edit_timeout].
    rewrite Hn2, Hc. rewrite decide_True by done. eauto. }
  destruct Hclick as [o Hclick]. rewrite Hclick. cbn [fst snd]. clear Hclick.
  rewrite (elapseEdits_due T tm) by (done || (cbn; lia)).
  unfold fireEdit, tm.
  cbn [page_store onContentChange contentProp localContent edit_timers edit_next
       edit_timeout edit_id edit_callback edit_value].
  rewrite filter_cons_False by (intros H; by apply H).
  cbn [filter list_filter]. unfold bind, updateCurrentNote_of.
  rewrite Hf. cbn [negb]. unfold ret.
  cbn [fst snd page_store localContent edit_timers].
  rewrite createNewNote_idle by done. cbn [fst noteStore notes]. fold s2.
  done.
Qed.

Lemma typed_without_note_not_stored_witness :
  noteContent
    (page_store
       (elapseEdits 150
          (clickNew 60 (handleChange 0 (js "typed") (mounted emptyStore)) ticking_world).1
          (clickNew 60 (handleChange 0 (js "typed") (mounted emptyStore)) ticking_world).2).1)
  = [] ∧
  localContent
    (elapseEdits 150
       (clickNew 60 (handleChange 0 (js "typed") (mounted emptyStore)) ticking_world).1
       (clickNew 60 (handleChange 0 (js "typed") (mounted emptyStore)) ticking_world).2).1
  = (js "typed").
Proof.
  destruct (typed_without_note_not_stored (mounted emptyStore) 0%Z (js "typed") 60%Z 150%Z
              ticking_world) as (_ & Ha & Hl & _).
  - repeat split.
  - reflexivity.
  - reflexivity.
  - unfold wait_edit. lia.
  - unfold wait_edit. lia.
  - split; [|exact Hl]. unfold noteContent. by rewrite Ha.
Defined.
